(** * convert-syntax.py: nested-to-flat parameter syntax rewriter

    A shallow embedding of [tools/convert-syntax.py].  The script is a
    regular-expression substitution over the text of each file named on
    the command line.  The embedding has three layers:

    - a backtracking regular-expression matcher in the style of Python's
      [re] module (priority-ordered list of successes, capture groups,
      leftmost scanning, [re.sub] and [re.findall]);
    - the two patterns of the script and the functions
      [replace_params] and [convert_function_params];
    - [main], over a file store whose status calls, reads and writes may
      fail, a standard output that may lack the check mark of the
      "converted" notice, an output log and an exit status. *)

From stdpp Require Import gmap strings list fin_maps.
From Stdlib Require Import Ascii NArith Lia.

Local Open Scope N_scope.
Local Open Scope list_scope.

(** ** Characters and text *)

(** A Python [str] is a sequence of code points. *)
Abbreviation char := N (only parsing).
Abbreviation text := (list N) (only parsing).

Definition str (s : string) : text :=
  List.map N_of_ascii (String.list_ascii_of_string s).

Definition lparen : char := 40.
Definition rparen : char := 41.
Definition newline : char := 10.
Definition space : char := 32.
Definition minus : char := 45.
Definition gt : char := 62.
Definition underscore : char := 95.

(** A classification that puts no code point from 128 on in a class;
    texts in ASCII are indifferent to it. *)
Definition ascii_only : char -> bool := fun _ => false.

(** [SRE_CATEGORY_UNI_SPACE] below 128: TAB..CR, FS..US and SPACE. *)
Definition ascii_space (c : char) : bool :=
  ((9 <=? c) && (c <=? 13)) || ((28 <=? c) && (c <=? 32)).

(** [SRE_CATEGORY_UNI_WORD] below 128: alphanumerics and underscore. *)
Definition ascii_word (c : char) : bool :=
  ((48 <=? c) && (c <=? 57)) || ((65 <=? c) && (c <=? 90))
  || ((97 <=? c) && (c <=? 122)) || (c =? underscore).

(** ** Regular expressions *)

Inductive regex : Type :=
| Cls (p : char -> bool)
| Cat (r1 r2 : regex)
| Star (r : regex)
| Grp (i : nat) (r : regex).

Declare Scope regex_scope.
Delimit Scope regex_scope with re.
Bind Scope regex_scope with regex.
Infix "∙" := Cat (at level 62, right associativity) : regex_scope.

Definition Lit (c : char) : regex := Cls (N.eqb c).
Definition Plus (r : regex) : regex := Cat r (Star r).

(** Capture groups, most recently closed group first. *)
Abbreviation caps := (list (nat * list N)) (only parsing).

Fixpoint group (i : nat) (c : caps) : text :=
  match c with
  | [] => []
  | (j, v) :: c' => if Nat.eqb i j then v else group i c'
  end.

(** One way of matching: the text left over and the groups captured. *)
Abbreviation outcome := (list N * list (nat * list N))%type (only parsing).

(** Greedy repetition: iterate first, stop last.  An iteration that
    consumes nothing is not repeated. *)
Fixpoint star_all (step : text -> caps -> list outcome) (n : nat)
    (s : text) (c : caps) : list outcome :=
  match n with
  | O => [(s, c)]
  | S n' =>
      flat_map (fun o : outcome =>
                  if Nat.ltb (length o.1) (length s)
                  then star_all step n' o.1 o.2 else [])
               (step s c) ++ [(s, c)]
  end.

(** All the ways [r] matches a prefix of [s], in the order in which a
    backtracking matcher tries them. *)
Fixpoint all (r : regex) (s : text) (c : caps) : list outcome :=
  match r with
  | Cls p =>
      match s with
      | x :: s' => if p x then [(s', c)] else []
      | [] => []
      end
  | Cat r1 r2 => flat_map (fun o : outcome => all r2 o.1 o.2) (all r1 s c)
  | Star r1 => star_all (all r1) (length s) s c
  | Grp i r1 =>
      List.map (fun o : outcome =>
                  (o.1, (i, take (length s - length o.1) s) :: o.2))
               (all r1 s c)
  end.

(** ** Match objects, scanning, [re.sub] and [re.findall] *)

Record rmatch : Type := MkMatch {
  m_whole : text;
  m_groups : caps;
  m_after : text
}.

Definition is_nil {A} (l : list A) : bool :=
  match l with [] => true | _ => false end.

(** The match at the start of [s]; with [adv] set (the previous match
    was empty and ended here) an empty match is refused. *)
Definition match_at (r : regex) (adv : bool) (s : text) : option rmatch :=
  match List.filter (fun o : outcome =>
                       negb (adv && Nat.eqb (length o.1) (length s)))
                    (all r s []) with
  | o :: _ => Some (MkMatch (take (length s - length o.1) s) o.2 o.1)
  | [] => None
  end.

Inductive piece : Type :=
| Keep (x : char)
| Hit (m : rmatch).

Fixpoint scan_go (r : regex) (fuel : nat) (adv : bool) (s : text) : list piece :=
  match fuel with
  | O => []
  | S fuel' =>
      match match_at r adv s with
      | Some m => Hit m :: scan_go r fuel' (is_nil (m_whole m)) (m_after m)
      | None =>
          match s with
          | [] => []
          | x :: s' => Keep x :: scan_go r fuel' false s'
          end
      end
  end.

(** Every step of [scan_go] consumes a character or follows an empty
    match at the same place, so this fuel is never used up. *)
Definition scan (r : regex) (s : text) : list piece :=
  scan_go r (2 * length s + 2) false s.

Definition hits (ps : list piece) : list rmatch :=
  flat_map (fun p => match p with Hit m => [m] | Keep _ => [] end) ps.

(** [re.sub(pattern, repl, s)] with a function [repl]. *)
Definition sub (r : regex) (repl : rmatch -> text) (s : text) : text :=
  flat_map (fun p => match p with Hit m => repl m | Keep x => [x] end)
           (scan r s).

(** [re.findall(pattern, s)] for a pattern with two groups. *)
Definition findall2 (r : regex) (s : text) : list (text * text) :=
  List.map (fun m => (group 1 (m_groups m), group 2 (m_groups m)))
           (hits (scan r s)).

(** [sep.join(parts)] *)
Fixpoint join (sep : text) (parts : list text) : text :=
  match parts with
  | [] => []
  | [p] => p
  | p :: ps => p ++ sep ++ join sep ps
  end.

(** ** The file store and the statements of [main] *)

(** What the file store answers for a path.  [MkNode]: the path
    exists; [n_text] is the text that [read_text] returns, decoded and
    with newlines translated, [None] when reading raises (a directory, a
    file that may not be read or that does not decode); [n_writable]
    tells whether [write_text] succeeds.  [NoStat]: the status of the
    path cannot be read, so that [Path.exists] raises (a name that is
    too long, a directory on the way that may not be searched). *)
Inductive node : Type :=
| MkNode (n_text : option text) (n_writable : bool)
| NoStat.

(** File-system calls, in the order made. *)
Inductive io : Type :=
| IoExists (path : string)
| IoRead (path : string)
| IoWrite (path : string) (data : text).

(** Lines printed: the two usage lines, "Skip: <path> (not found)",
    the check mark U+2713 and "Converted: <path>", and
    "Unchanged: <path>".  The path is the text that the line shows, the
    [str] of the [Path] object. *)
Inductive notice : Type :=
| Usage (line : string)
| Skip (path : string)
| Converted (path : string)
| Unchanged (path : string).

Record world : Type := MkWorld {
  files : gmap string node;
  stdout : list notice;
  calls : list io
}.

(** [FileError]: the exception of a failed call on a path, an [OSError]
    or, from [read_text], a [UnicodeDecodeError].  [UnicodeEncodeError]:
    the exception of [print] for a character that the encoding of
    standard output lacks. *)
Inductive exn : Type :=
| SystemExit (code : nat)
| FileError (path : string)
| UnicodeEncodeError.

Inductive result (A : Type) : Type :=
| Ok (a : A)
| Raise (e : exn).
Arguments Ok {A} a.
Arguments Raise {A} e.

(** A statement: it changes the world and returns or raises. *)
Definition prog (A : Type) : Type := world -> world * result A.

Definition ret {A} (a : A) : prog A := fun w => (w, Ok a).

Definition bind {A B} (m : prog A) (f : A -> prog B) : prog B := fun w =>
  match m w with
  | (w', Ok a) => f a w'
  | (w', Raise e) => (w', Raise e)
  end.

Notation "'let*' x := m 'in' k" := (bind m (fun x => k))
  (at level 10, x name, m at level 100, k at level 200).
Notation "m ⨾ k" := (bind m (fun _ => k))
  (at level 100, k at level 200, right associativity).

Definition call (c : io) : prog unit := fun w =>
  (MkWorld (files w) (stdout w) (calls w ++ [c]), Ok tt).

Definition sys_exit (code : nat) : prog unit := fun w =>
  (w, Raise (SystemExit code)).

(** [Path.exists]: false for a missing path; an error of the status
    call other than "not found" is raised again. *)
Definition path_exists (path : string) : prog bool :=
  call (IoExists path) ⨾
  fun w =>
    match files w !! path with
    | None => (w, Ok false)
    | Some (MkNode _ _) => (w, Ok true)
    | Some NoStat => (w, Raise (FileError path))
    end.

(** [Path.read_text] *)
Definition read_text (path : string) : prog text :=
  call (IoRead path) ⨾
  fun w =>
    match files w !! path with
    | Some (MkNode (Some content) _) => (w, Ok content)
    | _ => (w, Raise (FileError path))
    end.

(** [Path.write_text]: a missing file is created. *)
Definition write_text (path : string) (data : text) : prog unit :=
  call (IoWrite path data) ⨾
  fun w =>
    match files w !! path with
    | Some (MkNode _ false) | Some NoStat => (w, Raise (FileError path))
    | _ => (MkWorld (<[path := MkNode (Some data) true]> (files w))
                    (stdout w) (calls w), Ok tt)
    end.

(** [for x in l: body] *)
Fixpoint for_each {A} (l : list A) (body : A -> prog unit) : prog unit :=
  match l with
  | [] => ret tt
  | x :: l' => body x ⨾ for_each l' body
  end.

Definition usage1 : string :=
  "Usage: convert-syntax.py <file1.aisl> [file2.aisl ...]".
Definition usage2 : string :=
  "   or: convert-syntax.py tests/*.aisl".


(** ** The text of a [Path] *)

(** [str.split] on the slash, with the part read so far. *)
Fixpoint split_go (cur : string) (s : string) : list string :=
  match s with
  | EmptyString => [cur]
  | String c s' =>
      if Ascii.eqb c "/" then cur :: split_go EmptyString s'
      else split_go (cur +:+ String c EmptyString) s'
  end.

(** [posixpath.splitroot]: the root and the rest.  One leading slash, or
    three and more, make the root "/"; exactly two make the root "//". *)
Definition splitroot (p : string) : string * string :=
  match p with
  | String a p1 =>
      if Ascii.eqb a "/" then
        match p1 with
        | String b p2 =>
            if Ascii.eqb b "/" then
              match p2 with
              | String c _ => if Ascii.eqb c "/" then ("/", p1) else ("//", p2)
              | EmptyString => ("//", p2)
              end
            else ("/", p1)
        | EmptyString => ("/", p1)
        end
      else (EmptyString, p)
  | EmptyString => (EmptyString, p)
  end.

(** ["/".join] *)
Fixpoint join_slash (parts : list string) : string :=
  match parts with
  | [] => EmptyString
  | [x] => x
  | x :: parts' => x +:+ "/" +:+ join_slash parts'
  end.

(** [str(Path(file_path))] on a POSIX system: the root, then the parts
    between slashes that are neither empty nor ".", joined by slashes;
    "." when nothing is left.  The script does not resolve ".." and
    neither does [Path]. *)
Definition str_Path (file_path : string) : string :=
  let parsed := splitroot file_path in
  let tail := List.filter (fun x => negb (String.eqb x EmptyString) && negb (String.eqb x "."))
                          (split_go EmptyString parsed.2) in
  let shown := parsed.1 +:+ join_slash tail in
  if String.eqb shown EmptyString then "." else shown.
Arguments str_Path : simpl never.

(** ** Texts and stores used as examples *)

(** Two signatures on two lines. *)
Definition two_lines : list N :=
  str "(fn a () -> x" ++ [newline] ++ str "(fn b () -> y".

(** The match of the first signature of [two_lines]. *)
Definition first_of_two : rmatch :=
  MkMatch (str "(fn a () -> x")
          [(4%nat, str "x"); (3%nat, []); (2%nat, str "a"); (1%nat, str "fn")]
          ([newline] ++ str "(fn b () -> y").

(** The match of "(fn main () -> i32". *)
Definition main_match : rmatch :=
  MkMatch (str "(fn main () -> i32")
          [(4%nat, str "i32"); (3%nat, []); (2%nat, str "main"); (1%nat, str "fn")]
          [].

(** A match whose parameter region holds two well-formed parameters and
    three entries of another shape. *)
Definition mixed_match : rmatch :=
  MkMatch []
          [(4%nat, str "i32"); (3%nat, str "(a i32) (b) (c d e) b i32 (x  y)");
           (2%nat, str "f"); (1%nat, str "fn")]
          [].

(** A signature whose name and parameter list are on different lines. *)
Definition split_sig : list N := str "(fn f" ++ [newline] ++ str "() -> x".



(** A store with one old-syntax file. *)
Definition small_world : world :=
  MkWorld {["a.aisl" := MkNode (Some (str "(fn main () -> i32")) true]} [] [].

(** A store whose only path cannot be examined. *)
Definition locked_world : world :=
  MkWorld {["locked/a.aisl" := NoStat]} [] [].

(** A store with two old-syntax files and a directory. *)
Definition mixed_world : world :=
  MkWorld (<["a.aisl" := MkNode (Some (str "(fn main () -> i32")) true]>
           (<["src" := MkNode None false]>
            {["b.aisl" := MkNode (Some (str "(fn id ((x i32)) -> i32")) true]}))
          [] [].

Section Rewriter.

(** The classification of code points from 128 on comes from the Unicode
    database, which is not part of the script. *)
Variable uword : char -> bool.
Variable uspace : char -> bool.

(** Whether the encoding of standard output has the check mark U+2713
    of the "converted" notice.  It is settled when the program starts. *)
Variable check_mark : bool.

Definition is_space (c : char) : bool :=
  if c <? 128 then ascii_space c else uspace c.

Definition is_word (c : char) : bool :=
  if c <? 128 then ascii_word c else uword c.

Definition not_rparen (c : char) : bool := negb (c =? rparen).
Definition dot (c : char) : bool := negb (c =? newline).

(** The pattern of line 26, spaced out:
    \( (\w+) \s+ (\w+) \) *)
Definition param_pattern : regex :=
  (Lit lparen ∙ Grp 1 (Plus (Cls is_word)) ∙ Plus (Cls is_space) ∙
   Grp 2 (Plus (Cls is_word)) ∙ Lit rparen)%re.

(** The repeated non-capturing group inside the third group:
    \( [^)]* \) [^)]* *)
Definition nested_group : regex :=
  (Lit lparen ∙ Star (Cls not_rparen) ∙ Lit rparen ∙ Star (Cls not_rparen))%re.

(** The third group of the pattern of line 40, spaced out:
    [^)]* (?: \( [^)]* \) [^)]* )* *)
Definition params_region : regex :=
  (Star (Cls not_rparen) ∙ Star nested_group)%re.

(** A two-state automaton for the texts of [params_region]: the state
    records whether an opening parenthesis has been seen since the last
    closing one (or the start); a closing parenthesis needs one. *)
Fixpoint run (open : bool) (u : text) : option bool :=
  match u with
  | [] => Some open
  | x :: u' =>
      if x =? rparen then (if open then run false u' else None)
      else run (open || (x =? lparen)) u'
  end.

Definition region_ok (u : text) : bool :=
  match run false u with Some _ => true | None => false end.

(** The pattern of line 40, spaced out:
    \( (fn) \s+ (\w+) \s+ \( ( params_region ) \) \s+ -> \s+ (.+)
    The code points 102 and 110 are the letters f and n.  No flag is
    given, so the dot matches every character but the newline. *)
Definition pattern : regex :=
  (Lit lparen ∙ Grp 1 (Lit 102 ∙ Lit 110) ∙ Plus (Cls is_space) ∙
   Grp 2 (Plus (Cls is_word)) ∙ Plus (Cls is_space) ∙ Lit lparen ∙
   Grp 3 params_region ∙ Lit rparen ∙ Plus (Cls is_space) ∙
   Lit minus ∙ Lit gt ∙ Plus (Cls is_space) ∙ Grp 4 (Plus (Cls dot)))%re.

Definition arrow : text := [space; minus; gt; space].

Definition replace_params (m : rmatch) : text :=
  let fn_keyword := group 1 (m_groups m) in
  let fn_name := group 2 (m_groups m) in
  let params_str := group 3 (m_groups m) in
  let rest := group 4 (m_groups m) in
  let params := findall2 param_pattern params_str in
  if is_nil params then
    fn_keyword ++ [space] ++ fn_name ++ arrow ++ rest
  else
    let flat_params :=
      join [space] (List.map (fun p : text * text => p.1 ++ [space] ++ p.2) params) in
    fn_keyword ++ [space] ++ fn_name ++ [space] ++ flat_params ++ arrow ++ rest.

Definition convert_function_params (content : text) : text :=
  sub pattern replace_params content.

(** ** Declarative reading of a pattern *)

(** [parses r u c c']: [r] matches exactly the text [u], turning the
    captures [c] into [c']. *)
Inductive parses : regex -> text -> caps -> caps -> Prop :=
| P_cls p x c : p x = true -> parses (Cls p) [x] c c
| P_cat r1 r2 u v c c1 c2 :
    parses r1 u c c1 -> parses r2 v c1 c2 -> parses (Cat r1 r2) (u ++ v) c c2
| P_star_nil r c : parses (Star r) [] c c
| P_star_cons r u v c c1 c2 :
    u <> [] -> parses r u c c1 -> parses (Star r) v c1 c2 ->
    parses (Star r) (u ++ v) c c2
| P_grp i r u c c1 : parses r u c c1 -> parses (Grp i r) u c ((i, u) :: c1).

(** [occurs_at r s]: some prefix of [s] is matched by [r]. *)
Definition occurs_at (r : regex) (s : text) : Prop :=
  exists u t c, s = u ++ t /\ parses r u [] c.

(** [occurs r s]: [r] matches some substring of [s]. *)
Definition occurs (r : regex) (s : text) : Prop :=
  exists pre t, s = pre ++ t /\ occurs_at r t.

(** ** Scanning with a pattern that never matches the empty text *)

Definition never_empty (r : regex) : Prop :=
  forall c c', ~ parses r [] c c'.

(** ** The shape of an old-syntax signature *)

(** The parts of a signature that the pattern leaves free. *)
Record signature : Type := MkSig {
  sg_ws1 : text;
  sg_name : text;
  sg_ws2 : text;
  sg_params : text;
  sg_ws3 : text;
  sg_ws4 : text;
  sg_rest : text
}.

Definition fn_kw : text := [102; 110].

(** A non-empty run of characters of one class. *)
Definition run_of (p : char -> bool) (u : text) : bool :=
  negb (is_nil u) && forallb p u.

Definition sig_ok (g : signature) : bool :=
  run_of is_space (sg_ws1 g) && run_of is_word (sg_name g) &&
  run_of is_space (sg_ws2 g) && region_ok (sg_params g) &&
  run_of is_space (sg_ws3 g) && run_of is_space (sg_ws4 g) &&
  run_of dot (sg_rest g).

Definition sig_text (g : signature) : text :=
  [lparen] ++ ([102] ++ [110]) ++ sg_ws1 g ++ sg_name g ++ sg_ws2 g ++
  [lparen] ++ sg_params g ++ [rparen] ++ sg_ws3 g ++ [minus] ++ [gt] ++
  sg_ws4 g ++ sg_rest g.

Definition sig_caps (g : signature) (c : caps) : caps :=
  (4%nat, sg_rest g) :: (3%nat, sg_params g) :: (2%nat, sg_name g) ::
  (1%nat, fn_kw) :: c.

(** The text left by a maximal run of [p]: empty, or starting outside [p]. *)
Definition stops (p : char -> bool) (t : text) : Prop :=
  match t with [] => True | x :: _ => p x = false end.

(** ** Parameter extraction *)

(** The extraction rule as the specification words it: at every position
    of the region, left to right, an opening parenthesis, a maximal run
    of word characters (the name), a maximal run of whitespace, a maximal
    run of word characters (the type) and a closing parenthesis. *)
Fixpoint span (p : char -> bool) (u : text) : text * text :=
  match u with
  | [] => ([], [])
  | x :: u' => if p x then (x :: (span p u').1, (span p u').2) else ([], u)
  end.

Definition spec_pair_at (s : text) : option (text * text) :=
  match s with
  | [] => None
  | x :: s1 =>
      let name := span is_word s1 in
      let ws := span is_space name.2 in
      let typ := span is_word ws.2 in
      match typ.2 with
      | y :: _ =>
          if (x =? lparen) && negb (is_nil name.1) && negb (is_nil ws.1)
             && negb (is_nil typ.1) && (y =? rparen)
          then Some (name.1, typ.1) else None
      | [] => None
      end
  end.

Fixpoint spec_pairs (s : text) : list (text * text) :=
  match s with
  | [] => []
  | _ :: s' =>
      match spec_pair_at s with
      | Some p => p :: spec_pairs s'
      | None => spec_pairs s'
      end
  end.

Definition not_lparen (x : char) : bool := negb (x =? lparen).

(** ** The replacement text *)

Definition word_or_space (x : char) : bool := is_word x || is_space x.

(** The prefix of a signature up to and including the parenthesis that
    opens the parameter list. *)
Definition sig_head (g : signature) : text :=
  [102; 110] ++ sg_ws1 g ++ sg_name g ++ sg_ws2 g.

(** The part of a signature after the parameter region. *)
Definition sig_tail (g : signature) : text :=
  [rparen] ++ sg_ws3 g ++ [minus] ++ [gt] ++ sg_ws4 g ++ sg_rest g.

(** ** Gaps between matches *)

(** No match starts inside [G] when [G] is followed by [t]. *)
Definition gap (r : regex) (G t : text) : Prop :=
  forall G1 G2, G = G1 ++ G2 -> G2 <> [] -> match_at r false (G2 ++ t) = None.

(** ** Rewriting an already rewritten text *)

(** The rest captures of the matches of a text, in order. *)
Definition rests (s : text) : list (list N) :=
  List.map (fun m => group 4 (m_groups m)) (hits (scan pattern s)).


(** Does the text begin with an opening parenthesis and the letters f
    and n, as every match does? *)
Definition opens_sig (t : text) : bool :=
  match t with
  | a :: b :: c :: _ => (a =? lparen) && (b =? 102) && (c =? 110)
  | _ => false
  end.

(** Does the text hold these three characters in a row? *)
Fixpoint holds_sig (t : text) : bool :=
  opens_sig t || match t with [] => false | _ :: t' => holds_sig t' end.

(** No rest capture of the matches of a text holds them. *)
Definition rests_plain (s : text) : bool :=
  forallb (fun rest => negb (holds_sig rest)) (rests s).

(** ** The command line: [main] *)

(** [print]: the usage lines and the skip and "unchanged" notices are
    ASCII text around a path, and the path, which came in through the
    command line, is taken to be printable; the "converted" notice
    begins with the check mark, and printing it raises when standard
    output cannot encode the mark.  Nothing of a line is written when
    its encoding fails. *)
Definition print (n : notice) : prog unit := fun w =>
  match n with
  | Converted _ =>
      if check_mark then (MkWorld (files w) (stdout w ++ [n]) (calls w), Ok tt)
      else (w, Raise UnicodeEncodeError)
  | _ => (MkWorld (files w) (stdout w ++ [n]) (calls w), Ok tt)
  end.

(** The body of the loop of [main] for one argument.  The [Path] object
    of the code is carried as the argument it is made from: the file
    is named to the store by it, and the notices show [str_Path] of it,
    which is what formatting the object gives. *)
Definition convert_file (file_path : string) : prog unit :=
  let* found := path_exists file_path in
  if negb found then print (Skip (str_Path file_path))
  else
    let* content := read_text file_path in
    let converted := convert_function_params content in
    if bool_decide (content <> converted) then
      write_text file_path converted ⨾ print (Converted (str_Path file_path))
    else print (Unchanged (str_Path file_path)).

(** [argv] is [sys.argv]: the program name, then the file arguments. *)
Definition main (argv : list string) : prog unit :=
  if Nat.ltb (length argv) 2 then
    print (Usage usage1) ⨾ print (Usage usage2) ⨾ sys_exit 1
  else for_each (drop 1 argv) convert_file.

(** An argument on which the body of the loop returns: its path is
    missing, or it can be read and either the rewriter leaves its text
    as it is, or the file can be written and the check mark of the
    notice can be printed. *)
Definition processable (fs : gmap string node) (path : string) : bool :=
  match fs !! path with
  | None => true
  | Some (MkNode (Some content) writable) =>
      bool_decide (convert_function_params content = content)
      || (writable && check_mark)
  | Some _ => false
  end.

(** The exception that ends the loop at an argument that is not
    processable: that of [print] when the file can be read and written,
    that of the failing call on the path otherwise. *)
Definition failure (fs : gmap string node) (path : string) : exn :=
  match fs !! path with
  | Some (MkNode (Some _) true) => UnicodeEncodeError
  | _ => FileError path
  end.

(** The notice printed for an argument: a skip for a missing path,
    "converted" or "unchanged" for one that exists; the notice shows
    [str_Path] of the argument. *)
Definition notice_for (fs : gmap string node) (n : notice) (file_path : string) : Prop :=
  (n = Skip (str_Path file_path) /\ fs !! file_path = None) \/
  ((n = Converted (str_Path file_path) \/ n = Unchanged (str_Path file_path)) /\
   is_Some (fs !! file_path)).

(** The file-system calls made for a path: the existence check, then the
    read, then at most one write, of a rewritten text that differs from
    the text it replaces. *)
Definition calls_for (cs : list io) (path : string) : Prop :=
  cs = [IoExists path] \/ cs = [IoExists path; IoRead path] \/
  exists content,
    convert_function_params content <> content /\
    cs = [IoExists path; IoRead path;
          IoWrite path (convert_function_params content)].

(** What one turn of the loop does, in one of four ways: a call on the
    path raises, and store and output stay as they are; the turn
    returns, having printed one notice and left the store as it is; it
    returns after overwriting a readable and writable file whose text
    the rewriter changes; or it overwrites such a file and [print]
    raises. *)
Inductive turn (path : string) (w : world) : world * result unit -> Prop :=
| turn_raise cs :
    processable (files w) path = false ->
    failure (files w) path = FileError path ->
    calls_for cs path ->
    turn path w (MkWorld (files w) (stdout w) (calls w ++ cs), Raise (FileError path))
| turn_keep n cs :
    processable (files w) path = true ->
    notice_for (files w) n path -> n <> Converted (str_Path path) ->
    calls_for cs path ->
    turn path w (MkWorld (files w) (stdout w ++ [n]) (calls w ++ cs), Ok tt)
| turn_write content :
    files w !! path = Some (MkNode (Some content) true) ->
    convert_function_params content <> content ->
    check_mark = true ->
    turn path w
      (MkWorld (<[path := MkNode (Some (convert_function_params content)) true]> (files w))
               (stdout w ++ [Converted (str_Path path)])
               (calls w ++ [IoExists path; IoRead path;
                            IoWrite path (convert_function_params content)]),
       Ok tt)
| turn_print_raise content :
    files w !! path = Some (MkNode (Some content) true) ->
    convert_function_params content <> content ->
    check_mark = false ->
    turn path w
      (MkWorld (<[path := MkNode (Some (convert_function_params content)) true]> (files w))
               (stdout w)
               (calls w ++ [IoExists path; IoRead path;
                            IoWrite path (convert_function_params content)]),
       Raise UnicodeEncodeError).

(** ** Further notions used by the statements *)

(** [re.search]: the text before the leftmost match, and the match. *)
Fixpoint search (r : regex) (s : text) : option (list N * rmatch) :=
  match match_at r false s with
  | Some m => Some ([], m)
  | None =>
      match s with
      | [] => None
      | x :: s' =>
          match search r s' with
          | Some (G, m) => Some (x :: G, m)
          | None => None
          end
      end
  end.

(** Does a match start at some position of [s]? *)
Fixpoint occursb (r : regex) (s : text) : bool :=
  match match_at r false s with
  | Some _ => true
  | None => match s with [] => false | _ :: s' => occursb r s' end
  end.

(** [str.split] on newlines. *)
Fixpoint lines_go (cur : text) (s : text) : list (list N) :=
  match s with
  | [] => [cur]
  | x :: s' => if x =? newline then cur :: lines_go [] s'
               else lines_go (cur ++ [x]) s'
  end.

Definition lines (s : text) : list (list N) := lines_go [] s.

(** The two examples of the docstring of the script. *)
Definition doc_old : text := str "(fn add ((a i32) (b i32)) -> i32".
Definition doc_new : text := str "(fn add a i32 b i32 -> i32".

(** ** Signatures in the layout of the docstring *)

(** One parameter of the old syntax: an opening parenthesis, the name, a
    space, the type, a closing parenthesis. *)
Definition old_param (p : text * text) : text :=
  [lparen] ++ p.1 ++ [space] ++ p.2 ++ [rparen].

(** The parameters of the old syntax, one space apart. *)
Definition old_params (ps : list (text * text)) : text :=
  join [space] (List.map old_param ps).

(** The OLD line of the docstring for any name, parameters and return
    type: "(fn", the name, the parenthesised parameters, the arrow, the
    return type, with single spaces. *)
Definition old_signature (name : text) (ps : list (text * text)) (ret : text) : text :=
  [lparen] ++ fn_kw ++ [space] ++ name ++ [space] ++ [lparen] ++ old_params ps
  ++ [rparen] ++ arrow ++ ret.

(** The same signature with the names and types in a row and without
    the opening parenthesis. *)
Definition flat_signature (name : text) (ps : list (text * text)) (ret : text) : text :=
  fn_kw ++ [space] ++ name ++
  (if is_nil ps then []
   else [space] ++
        join [space] (List.map (fun p : text * text => p.1 ++ [space] ++ p.2) ps))
  ++ arrow ++ ret.

(** Names and types are non-empty runs of word characters; the return
    type is not empty, holds no newline and does not start with
    whitespace. *)
Definition well_formed (name : text) (ps : list (text * text)) (ret : text) : bool :=
  run_of is_word name &&
  forallb (fun p : text * text => run_of is_word p.1 && run_of is_word p.2) ps &&
  match ret with
  | [] => false
  | x :: _ => negb (is_space x) && forallb dot ret
  end.

(** ** The matcher against the declarative reading *)

Lemma flat_map_all_nil {A B} (f : A -> list B) l :
  (forall x, In x l -> f x = []) -> flat_map f l = [].
Proof.
  induction l as [|x l IH]; intros Hf; simpl; [reflexivity|].
  rewrite Hf by (by left). apply IH. intros y Hy. apply Hf. by right.
Qed.

Lemma star_all_nil step n c : star_all step n [] c = [([], c)].
Proof.
  destruct n; simpl; [reflexivity|].
  rewrite flat_map_all_nil; [reflexivity|]. intros o _.
  destruct (Nat.ltb_spec (length o.1) 0); [lia|reflexivity].
Qed.

Lemma star_all_fuel step n m s c :
  (length s <= n)%nat -> (length s <= m)%nat ->
  star_all step n s c = star_all step m s c.
Proof.
  revert m s c. induction n as [|n IH]; intros m s c Hn Hm.
  - destruct s; [|simpl in Hn; lia]. by rewrite !star_all_nil.
  - destruct m as [|m].
    + destruct s; [|simpl in Hm; lia]. by rewrite !star_all_nil.
    + simpl. f_equal. apply flat_map_ext. intros o.
      destruct (Nat.ltb_spec (length o.1) (length s)); [|reflexivity].
      apply IH; lia.
Qed.

Lemma star_all_sound r step :
  (forall s c o, In o (step s c) -> exists u, s = u ++ o.1 /\ parses r u c o.2) ->
  forall n s c o, In o (star_all step n s c) ->
    exists u, s = u ++ o.1 /\ parses (Star r) u c o.2.
Proof.
  intros Hstep n. induction n as [|n IH]; intros s c o Hin; simpl in Hin.
  - destruct Hin as [<-|[]]. exists []. split; [reflexivity|constructor].
  - apply in_app_or in Hin. destruct Hin as [Hin|[<-|[]]].
    + apply in_flat_map in Hin. destruct Hin as (o1 & Ho1 & Hin).
      destruct (Nat.ltb_spec (length o1.1) (length s)) as [Hlt|]; [|destruct Hin].
      apply Hstep in Ho1. destruct Ho1 as (u & Hs & Hu).
      apply IH in Hin. destruct Hin as (v & Hs1 & Hv).
      exists (u ++ v). split.
      * rewrite Hs at 1. rewrite Hs1 at 1. apply app_assoc.
      * eapply P_star_cons; eauto.
        intros ->. apply (f_equal length) in Hs. simpl in Hs. lia.
    + exists []. split; [reflexivity|constructor].
Qed.

Lemma all_sound r : forall s c o,
  In o (all r s c) -> exists u, s = u ++ o.1 /\ parses r u c o.2.
Proof.
  induction r as [p|r1 IH1 r2 IH2|r IH|i r IH]; intros s c o Hin; simpl in Hin.
  - destruct s as [|x s']; [destruct Hin|].
    destruct (p x) eqn:Hp; [|destruct Hin]. destruct Hin as [<-|[]].
    exists [x]. split; [reflexivity|]. by constructor.
  - apply in_flat_map in Hin. destruct Hin as (o1 & Ho1 & Hin).
    apply IH1 in Ho1. destruct Ho1 as (u & Hs & Hu).
    apply IH2 in Hin. destruct Hin as (v & Hs1 & Hv).
    exists (u ++ v). split.
    + rewrite Hs at 1. rewrite Hs1 at 1. apply app_assoc.
    + econstructor; eauto.
  - eapply star_all_sound; eauto.
  - apply in_map_iff in Hin. destruct Hin as (o1 & <- & Ho1).
    apply IH in Ho1. destruct Ho1 as (u & Hs & Hu). simpl.
    exists u. split; [exact Hs|].
    replace (take (length s - length o1.1) s) with u; [by constructor|].
    rewrite Hs at 2. rewrite Hs at 1. rewrite length_app.
    replace (length u + length o1.1 - length o1.1)%nat with (length u) by lia.
    by rewrite take_app_length.
Qed.

Lemma all_complete r u c c' :
  parses r u c c' -> forall t, In (t, c') (all r (u ++ t) c).
Proof.
  induction 1 as [p x c Hp|r1 r2 u v c c1 c2 _ IH1 _ IH2|r c
                 |r u v c c1 c2 Hne _ IH1 _ IH2|i r u c c1 _ IH]; intros t.
  - simpl. rewrite Hp. by left.
  - simpl. apply in_flat_map. exists (v ++ t, c1). split.
    + rewrite <- app_assoc. apply IH1.
    + apply IH2.
  - simpl. destruct (length t); simpl; [by left|].
    apply in_or_app. right. by left.
  - simpl. rewrite <- app_assoc.
    destruct (length (u ++ v ++ t)) as [|n] eqn:Hlen.
    { destruct u; [done|discriminate]. }
    simpl. apply in_or_app. left. apply in_flat_map.
    exists (v ++ t, c1). split; [apply IH1|]. simpl.
    assert (length (v ++ t) < length (u ++ v ++ t))%nat as Hlt.
    { rewrite (length_app u). destruct u; [done|simpl; lia]. }
    destruct (Nat.ltb_spec (length (v ++ t)) (length (u ++ v ++ t))); [|lia].
    rewrite (star_all_fuel _ n (length (v ++ t))); [apply (IH2 t)|lia|lia].
  - simpl. apply in_map_iff. exists (t, c1). split; [|apply IH]. simpl.
    do 2 f_equal. rewrite length_app.
    replace (length u + length t - length t)%nat with (length u) by lia.
    by rewrite take_app_length.
Qed.

(** Membership in the list of outcomes is exactly the declarative
    reading. *)
Lemma all_parses r s c t c' :
  In (t, c') (all r s c) <-> exists u, s = u ++ t /\ parses r u c c'.
Proof.
  split.
  - intros Hin. apply all_sound in Hin. exact Hin.
  - intros (u & -> & Hu). by apply all_complete.
Qed.

Lemma filter_true {A} (l : list A) : List.filter (fun _ => true) l = l.
Proof. induction l as [|x l IH]; simpl; [reflexivity|by rewrite IH]. Qed.

Lemma match_at_false r s :
  match_at r false s =
  match all r s [] with
  | o :: _ => Some (MkMatch (take (length s - length o.1) s) o.2 o.1)
  | [] => None
  end.
Proof. unfold match_at. simpl. by rewrite filter_true. Qed.

Lemma take_length_app (u t : list N) :
  take (length (u ++ t) - length t) (u ++ t) = u.
Proof.
  rewrite length_app.
  replace (length u + length t - length t)%nat with (length u) by lia.
  apply take_app_length.
Qed.

Lemma match_at_Some r s m :
  match_at r false s = Some m ->
  s = m_whole m ++ m_after m /\
  parses r (m_whole m) [] (m_groups m) /\
  exists l, all r s [] = (m_after m, m_groups m) :: l.
Proof.
  rewrite match_at_false. destruct (all r s []) as [|o l] eqn:Hall; [done|].
  intros [= <-]. simpl.
  assert (In o (all r s [])) as Hin by (rewrite Hall; by left).
  apply all_sound in Hin. destruct Hin as (u & Hs & Hu).
  assert (take (length s - length o.1) s = u) as ->.
  { rewrite Hs. apply take_length_app. }
  split; [exact Hs|]. split; [exact Hu|]. exists l. by destruct o.
Qed.

Lemma match_at_None r s :
  match_at r false s = None <-> ~ occurs_at r s.
Proof.
  rewrite match_at_false. split.
  - destruct (all r s []) as [|o l] eqn:Hall; [|done]. intros _ (u & t & c & -> & Hu).
    apply all_complete with (t := t) in Hu. rewrite Hall in Hu. destruct Hu.
  - intros Hno. destruct (all r s []) as [|o l] eqn:Hall; [done|]. exfalso.
    apply Hno. assert (In o (all r s [])) as Hin by (rewrite Hall; by left).
    apply all_sound in Hin. destruct Hin as (u & Hs & Hu).
    exists u, o.1, o.2. by split.
Qed.

Lemma match_at_shorter r s m :
  never_empty r -> match_at r false s = Some m ->
  is_nil (m_whole m) = false /\ (length (m_after m) < length s)%nat.
Proof.
  intros Hne Hm. apply match_at_Some in Hm. destruct Hm as (Hs & Hp & _).
  destruct (m_whole m) as [|x w] eqn:Hw.
  - exfalso. by eapply Hne.
  - split; [reflexivity|]. rewrite Hs. simpl. rewrite length_app. lia.
Qed.

Lemma scan_go_fuel r : never_empty r ->
  forall f1 f2 s, (length s < f1)%nat -> (length s < f2)%nat ->
    scan_go r f1 false s = scan_go r f2 false s.
Proof.
  intros Hne f1. induction f1 as [|f1 IH]; intros f2 s H1 H2; [lia|].
  destruct f2 as [|f2]; [lia|]. simpl.
  destruct (match_at r false s) as [m|] eqn:Hm.
  - destruct (match_at_shorter _ _ _ Hne Hm) as [-> Hlt].
    f_equal. apply IH; lia.
  - destruct s as [|x s']; [reflexivity|]. f_equal. simpl in *. apply IH; lia.
Qed.

(** The defining equation of the scan, free of fuel. *)
Lemma scan_eq r s : never_empty r ->
  scan r s =
  match match_at r false s with
  | Some m => Hit m :: scan r (m_after m)
  | None => match s with [] => [] | x :: s' => Keep x :: scan r s' end
  end.
Proof.
  intros Hne. unfold scan at 1.
  replace (2 * length s + 2)%nat with (S (2 * length s + 1)) by lia. simpl.
  destruct (match_at r false s) as [m|] eqn:Hm.
  - destruct (match_at_shorter _ _ _ Hne Hm) as [-> Hlt].
    f_equal. apply scan_go_fuel; [done|lia|lia].
  - destruct s as [|x s']; [reflexivity|]. f_equal.
    apply scan_go_fuel; [done|simpl; lia|simpl; lia].
Qed.

Lemma sub_hit r f s m : never_empty r ->
  match_at r false s = Some m -> sub r f s = f m ++ sub r f (m_after m).
Proof. intros Hne Hm. unfold sub. rewrite (scan_eq r s Hne), Hm. reflexivity. Qed.

Lemma sub_keep r f x s : never_empty r ->
  match_at r false (x :: s) = None -> sub r f (x :: s) = x :: sub r f s.
Proof. intros Hne Hm. unfold sub. rewrite (scan_eq r (x :: s) Hne), Hm. reflexivity. Qed.

Lemma sub_nil r f : never_empty r -> sub r f [] = [].
Proof.
  intros Hne. unfold sub. rewrite (scan_eq r [] Hne).
  destruct (match_at r false []) as [m|] eqn:Hm; [|reflexivity].
  apply (match_at_shorter _ _ _ Hne) in Hm. simpl in Hm. lia.
Qed.

(** ** Inversion of the declarative reading *)

Lemma parses_cls_inv p u c c' :
  parses (Cls p) u c c' -> exists x, u = [x] /\ p x = true /\ c' = c.
Proof. inversion 1; subst. eauto. Qed.

Lemma parses_lit_inv a u c c' :
  parses (Lit a) u c c' -> u = [a] /\ c' = c.
Proof.
  intros H. apply parses_cls_inv in H. destruct H as (x & -> & Hx & ->).
  apply N.eqb_eq in Hx. by subst.
Qed.

Lemma parses_lit a c : parses (Lit a) [a] c c.
Proof. constructor. apply N.eqb_refl. Qed.

Lemma parses_cat_inv r1 r2 u c c' :
  parses (Cat r1 r2) u c c' ->
  exists u1 u2 c1, u = u1 ++ u2 /\ parses r1 u1 c c1 /\ parses r2 u2 c1 c'.
Proof. inversion 1; subst. eauto 7. Qed.

Lemma parses_grp_inv i r u c c' :
  parses (Grp i r) u c c' -> exists c1, parses r u c c1 /\ c' = (i, u) :: c1.
Proof. inversion 1; subst. eauto. Qed.

Lemma parses_star_inv r u c c' :
  parses (Star r) u c c' ->
  (u = [] /\ c' = c) \/
  exists u1 u2 c1, u = u1 ++ u2 /\ u1 <> [] /\ parses r u1 c c1 /\
                   parses (Star r) u2 c1 c'.
Proof. inversion 1; subst; [by left|right; eauto 8]. Qed.

Lemma parses_star_cls p u c c' :
  parses (Star (Cls p)) u c c' <-> forallb p u = true /\ c' = c.
Proof.
  split.
  - intros H. remember (Star (Cls p)) as r eqn:Hr.
    induction H as [| | |r0 u v c c1 c2 _ H1 _ _ IH|]; try discriminate.
    + done.
    + injection Hr as ->. apply parses_cls_inv in H1.
      destruct H1 as (x & -> & Hx & ->). destruct (IH eq_refl) as [Hv ->].
      simpl. by rewrite Hx, Hv.
  - intros [Hu ->]. induction u as [|x u IH]; [constructor|].
    simpl in Hu. apply andb_true_iff in Hu. destruct Hu as [Hx Hu].
    apply (P_star_cons (Cls p) [x] u c c c); [done|by constructor|by apply IH].
Qed.

Lemma parses_plus_cls p u c c' :
  parses (Plus (Cls p)) u c c' <-> u <> [] /\ forallb p u = true /\ c' = c.
Proof.
  unfold Plus. split.
  - intros H. apply parses_cat_inv in H. destruct H as (u1 & u2 & c1 & -> & H1 & H2).
    apply parses_cls_inv in H1. destruct H1 as (x & -> & Hx & ->).
    apply parses_star_cls in H2. destruct H2 as [H2 ->].
    split; [done|]. split; [|done]. simpl. by rewrite Hx, H2.
  - intros (Hne & Hu & ->). destruct u as [|x u]; [done|].
    simpl in Hu. apply andb_true_iff in Hu. destruct Hu as [Hx Hu].
    apply (P_cat (Cls p) (Star (Cls p)) [x] u c c c); [by constructor|].
    by apply parses_star_cls.
Qed.

(** ** The parameter-list region *)

Lemma run_app b u v :
  run b (u ++ v) = match run b u with Some b' => run b' v | None => None end.
Proof.
  revert b. induction u as [|x u IH]; intros b; simpl; [reflexivity|].
  destruct (x =? rparen); [destruct b; [apply IH|reflexivity]|apply IH].
Qed.

Lemma run_norp b w :
  forallb not_rparen w = true -> exists b', run b w = Some b' /\ (b = true -> b' = true).
Proof.
  revert b. induction w as [|x w IH]; intros b Hw; simpl; [eauto|].
  simpl in Hw. apply andb_true_iff in Hw. destruct Hw as [Hx Hw].
  unfold not_rparen in Hx. apply negb_true_iff in Hx. rewrite Hx.
  destruct (IH (b || (x =? lparen))%bool Hw) as (b' & Hr & Hb').
  exists b'. split; [exact Hr|]. intros ->. by apply Hb'.
Qed.

Lemma run_mono b u : is_Some (run b u) -> is_Some (run true u).
Proof.
  revert b. induction u as [|x u IH]; intros b; simpl; [eauto|].
  destruct (x =? rparen); [by destruct b|]. apply IH.
Qed.

Lemma run_prefix b u v : is_Some (run b (u ++ v)) -> is_Some (run b u).
Proof. rewrite run_app. destruct (run b u); [eauto|]. by intros [? ?]. Qed.

Lemma parses_nested_group u c c' :
  parses nested_group u c c' <->
  exists x y, u = lparen :: x ++ rparen :: y /\
              forallb not_rparen x = true /\ forallb not_rparen y = true /\ c' = c.
Proof.
  unfold nested_group. split.
  - intros H.
    apply parses_cat_inv in H. destruct H as (u1 & u2 & c1 & -> & H1 & H).
    apply parses_lit_inv in H1. destruct H1 as [-> ->].
    apply parses_cat_inv in H. destruct H as (x & u3 & c2 & -> & Hx & H).
    apply parses_star_cls in Hx. destruct Hx as [Hx ->].
    apply parses_cat_inv in H. destruct H as (u4 & y & c3 & -> & H4 & Hy).
    apply parses_lit_inv in H4. destruct H4 as [-> ->].
    apply parses_star_cls in Hy. destruct Hy as [Hy ->].
    by exists x, y.
  - intros (x & y & -> & Hx & Hy & ->).
    apply (P_cat _ _ [lparen] (x ++ rparen :: y) c c c); [apply parses_lit|].
    apply (P_cat _ _ x (rparen :: y) c c c); [by apply parses_star_cls|].
    apply (P_cat _ _ [rparen] y c c c); [apply parses_lit|].
    by apply parses_star_cls.
Qed.

Lemma run_nested_group b x y :
  forallb not_rparen x = true -> forallb not_rparen y = true ->
  is_Some (run b (lparen :: x ++ rparen :: y)).
Proof.
  intros Hx Hy. change (is_Some (run (b || true) (x ++ rparen :: y))).
  rewrite orb_true_r, run_app.
  destruct (run_norp true x Hx) as (b1 & -> & Hb1). rewrite Hb1 by done.
  change (is_Some (run false y)).
  destruct (run_norp false y Hy) as (b2 & -> & _). eauto.
Qed.

Lemma star_nested_run u c c' :
  parses (Star nested_group) u c c' -> c' = c /\ forall b, is_Some (run b u).
Proof.
  intros H. remember (Star nested_group) as r eqn:Hr.
  induction H as [| |r0 c|r0 u v c c1 c2 _ H1 _ _ IH|]; try discriminate.
  - split; [done|]. intros b. simpl. eauto.
  - injection Hr as ->. apply parses_nested_group in H1.
    destruct H1 as (x & y & -> & Hx & Hy & ->). destruct (IH eq_refl) as [-> Hv].
    split; [done|]. intros b. rewrite run_app.
    destruct (run_nested_group b x y Hx Hy) as [b1 ->]. apply Hv.
Qed.

Lemma region_run u c c' :
  parses params_region u c c' -> c' = c /\ region_ok u = true.
Proof.
  unfold params_region. intros H.
  apply parses_cat_inv in H. destruct H as (x & v & c1 & -> & Hx & Hv).
  apply parses_star_cls in Hx. destruct Hx as [Hx ->].
  apply star_nested_run in Hv. destruct Hv as [-> Hv]. split; [done|].
  unfold region_ok. rewrite run_app.
  destruct (run_norp false x Hx) as (b1 & -> & _).
  by destruct (Hv b1) as [b2 ->].
Qed.

Lemma star_snoc r u v c c1 c2 :
  parses (Star r) u c c1 -> parses r v c1 c2 -> v <> [] ->
  parses (Star r) (u ++ v) c c2.
Proof.
  intros H. remember (Star r) as r' eqn:Hr. revert v c2.
  induction H as [| |r0 c|r0 u w c c1 c3 Hne H1 _ _ IH|]; try discriminate;
    intros v c2 Hv Hnv; injection Hr as ->.
  - simpl. rewrite <- (app_nil_r v).
    eapply P_star_cons; [done|exact Hv|constructor].
  - rewrite <- app_assoc. eapply P_star_cons; [done|exact H1|]. by apply IH.
Qed.

Lemma star_nested_append v w c c' :
  parses (Star nested_group) v c c' -> v <> [] -> forallb not_rparen w = true ->
  parses (Star nested_group) (v ++ w) c c'.
Proof.
  intros H. remember (Star nested_group) as r eqn:Hr. revert Hr.
  induction H as [| |r0 c|r0 u v c c1 c2 Hne H1 _ H2 IH|]; try discriminate;
    intros Hr Hnv Hw; [done|]. injection Hr as ->.
  pose proof H1 as H1'. apply parses_nested_group in H1'.
  destruct H1' as (x & y & -> & Hx & Hy & ->).
  destruct v as [|z v].
  - pose proof H2 as H2'. apply star_nested_run in H2'. destruct H2' as [-> _].
    rewrite app_nil_r. rewrite <- (app_nil_r (_ ++ w)).
    eapply P_star_cons; [| |constructor].
    + simpl. discriminate.
    + apply parses_nested_group. exists x, (y ++ w).
      split; [simpl; by rewrite <- app_assoc|].
      split; [done|]. split; [|done]. by rewrite forallb_app, Hy, Hw.
  - rewrite <- app_assoc. eapply P_star_cons; [done|exact H1|]. by apply IH.
Qed.

Lemma region_append_norp q w c :
  parses params_region q c c -> forallb not_rparen w = true ->
  parses params_region (q ++ w) c c.
Proof.
  unfold params_region. intros H Hw.
  apply parses_cat_inv in H. destruct H as (x & v & c1 & -> & Hx & Hv).
  pose proof Hx as Hx'. apply parses_star_cls in Hx'. destruct Hx' as [Hx' ->].
  destruct v as [|z v].
  - rewrite app_nil_r. rewrite <- (app_nil_r (x ++ w)).
    eapply P_cat; [|exact Hv]. apply parses_star_cls.
    split; [|done]. by rewrite forallb_app, Hx', Hw.
  - rewrite <- app_assoc. eapply P_cat; [exact Hx|].
    by apply star_nested_append.
Qed.

Lemma region_append_group q x c :
  parses params_region q c c -> forallb not_rparen x = true ->
  parses params_region (q ++ lparen :: x ++ [rparen]) c c.
Proof.
  unfold params_region. intros H Hx.
  apply parses_cat_inv in H. destruct H as (x0 & v & c1 & -> & Hx0 & Hv).
  pose proof Hx0 as Hx'. apply parses_star_cls in Hx'. destruct Hx' as [_ ->].
  rewrite <- app_assoc. eapply P_cat; [exact Hx0|].
  eapply star_snoc; [exact Hv| |done].
  apply parses_nested_group. by exists x, [].
Qed.

Lemma region_nil c : parses params_region [] c c.
Proof.
  unfold params_region. apply (P_cat _ _ [] [] c c c); constructor.
Qed.

Lemma run_region c u b :
  run false u = Some b ->
  if b then exists q w, u = q ++ lparen :: w /\ parses params_region q c c /\
                        forallb not_rparen w = true
  else parses params_region u c c.
Proof.
  revert b. induction u as [|x u IH] using rev_ind; intros b.
  - simpl. intros [= <-]. apply region_nil.
  - rewrite run_app. destruct (run false u) as [b0|] eqn:Hu; [|done].
    specialize (IH b0 eq_refl). simpl.
    destruct (x =? rparen) eqn:Hxr.
    + apply N.eqb_eq in Hxr. subst x. destruct b0; [|done]. intros [= <-].
      destruct IH as (q & w & -> & Hq & Hw). rewrite <- app_assoc. simpl.
      by apply region_append_group.
    + destruct (x =? lparen) eqn:Hxl.
      * apply N.eqb_eq in Hxl. subst x. rewrite orb_true_r. intros [= <-].
        destruct b0.
        -- destruct IH as (q & w & -> & Hq & Hw). exists q, (w ++ [lparen]).
           split; [by rewrite <- app_assoc|]. split; [done|].
           by rewrite forallb_app, Hw.
        -- by exists u, [].
      * rewrite orb_false_r. intros [= <-]. destruct b0.
        -- destruct IH as (q & w & -> & Hq & Hw). exists q, (w ++ [x]).
           split; [by rewrite <- app_assoc|]. split; [done|].
           rewrite forallb_app, Hw. simpl. unfold not_rparen. by rewrite Hxr.
        -- apply region_append_norp; [done|]. simpl. unfold not_rparen.
           by rewrite Hxr.
Qed.

(** The automaton accepts exactly the texts of the third group. *)
Lemma region_parses u c c' :
  parses params_region u c c' <-> region_ok u = true /\ c' = c.
Proof.
  split.
  - intros H. apply region_run in H. by destruct H.
  - intros [H ->]. unfold region_ok in H.
    destruct (run false u) as [b|] eqn:Hu; [|done].
    pose proof (run_region c u b Hu) as Hinv. destruct b; [|done].
    destruct Hinv as (q & w & -> & Hq & Hw).
    apply region_append_norp; [done|]. simpl. by rewrite Hw.
Qed.

(** ** Signatures and the pattern *)

Lemma run_of_parses p u c c' :
  parses (Plus (Cls p)) u c c' <-> run_of p u = true /\ c' = c.
Proof.
  rewrite parses_plus_cls. unfold run_of. rewrite andb_true_iff.
  destruct u; simpl; intuition congruence.
Qed.

Ltac split_cat H H1 :=
  let u1 := fresh "u" in let u2 := fresh "v" in let c1 := fresh "c" in
  apply parses_cat_inv in H; destruct H as (u1 & u2 & c1 & -> & H1 & H).

Lemma parses_pattern u c c' :
  parses pattern u c c' <->
  exists g, sig_ok g = true /\ u = sig_text g /\ c' = sig_caps g c.
Proof.
  unfold pattern. split.
  - intros H.
    split_cat H H1. apply parses_lit_inv in H1. destruct H1 as [-> ->].
    split_cat H H1. apply parses_grp_inv in H1. destruct H1 as (c1 & H1 & ->).
    split_cat H1 H0. apply parses_lit_inv in H0. destruct H0 as [-> ->].
    apply parses_lit_inv in H1. destruct H1 as [-> ->].
    split_cat H H1. apply run_of_parses in H1. destruct H1 as [Hws1 ->].
    split_cat H H1. apply parses_grp_inv in H1. destruct H1 as (c1 & H1 & ->).
    apply run_of_parses in H1. destruct H1 as [Hname ->].
    split_cat H H1. apply run_of_parses in H1. destruct H1 as [Hws2 ->].
    split_cat H H1. apply parses_lit_inv in H1. destruct H1 as [-> ->].
    split_cat H H1. apply parses_grp_inv in H1. destruct H1 as (c1 & H1 & ->).
    apply region_parses in H1. destruct H1 as [Hreg ->].
    split_cat H H1. apply parses_lit_inv in H1. destruct H1 as [-> ->].
    split_cat H H1. apply run_of_parses in H1. destruct H1 as [Hws3 ->].
    split_cat H H1. apply parses_lit_inv in H1. destruct H1 as [-> ->].
    split_cat H H1. apply parses_lit_inv in H1. destruct H1 as [-> ->].
    split_cat H H1. apply run_of_parses in H1. destruct H1 as [Hws4 ->].
    apply parses_grp_inv in H. destruct H as (c1 & H & ->).
    apply run_of_parses in H. destruct H as [Hrest ->].
    match goal with
    | |- context [ [lparen] ++ _ ++ ?w1 ++ ?nm ++ ?w2 ++ [lparen] ++ ?ps ++
                   [rparen] ++ ?w3 ++ [minus] ++ [gt] ++ ?w4 ++ ?rs ] =>
        exists (MkSig w1 nm w2 ps w3 w4 rs)
    end.
    unfold sig_ok, sig_text, sig_caps. simpl.
    rewrite Hws1, Hname, Hws2, Hreg, Hws3, Hws4, Hrest. done.
  - intros (g & Hok & -> & ->). unfold sig_ok in Hok.
    do 6 (apply andb_true_iff in Hok; destruct Hok as [Hok ?]).
    unfold sig_text, sig_caps.
    eapply P_cat; [apply parses_lit|].
    eapply P_cat; [apply P_grp; eapply P_cat; apply parses_lit|].
    eapply P_cat; [by apply run_of_parses|].
    eapply P_cat; [apply P_grp; by apply run_of_parses|].
    eapply P_cat; [by apply run_of_parses|].
    eapply P_cat; [apply parses_lit|].
    eapply P_cat; [apply P_grp; by apply region_parses|].
    eapply P_cat; [apply parses_lit|].
    eapply P_cat; [by apply run_of_parses|].
    eapply P_cat; [apply parses_lit|].
    eapply P_cat; [apply parses_lit|].
    eapply P_cat; [by apply run_of_parses|].
    apply P_grp. by apply run_of_parses.
Qed.

Lemma pattern_never_empty : never_empty pattern.
Proof.
  intros c c' H. apply parses_pattern in H. destruct H as (g & _ & Hu & _).
  discriminate Hu.
Qed.

(** What a match of the pattern at the start of [s] looks like. *)
Lemma match_sig s m :
  match_at pattern false s = Some m ->
  exists g, sig_ok g = true /\ m_whole m = sig_text g /\
            m_groups m = sig_caps g [] /\ s = sig_text g ++ m_after m.
Proof.
  intros Hm. apply match_at_Some in Hm. destruct Hm as (Hs & Hp & _).
  apply parses_pattern in Hp. destruct Hp as (g & Hok & Hw & Hc).
  exists g. rewrite <- Hw. done.
Qed.

Lemma occurs_at_pattern s :
  occurs_at pattern s <-> exists g t, sig_ok g = true /\ s = sig_text g ++ t.
Proof.
  split.
  - intros (u & t & c & -> & Hp). apply parses_pattern in Hp.
    destruct Hp as (g & Hok & -> & _). by exists g, t.
  - intros (g & t & Hok & ->). exists (sig_text g), t, (sig_caps g []).
    split; [done|]. apply parses_pattern. by exists g.
Qed.

(** ** The first outcome: greedy repetition takes the longest run *)

Lemma flat_map_head {A B} (f : A -> list B) l y l' :
  flat_map f l = y :: l' -> exists x l'', In x l /\ f x = y :: l''.
Proof.
  induction l as [|x l IH]; simpl; [done|].
  destruct (f x) as [|z fx] eqn:Hfx; simpl.
  - intros H. destruct (IH H) as (x' & l'' & Hin & Hx'). exists x', l''. by split; [right|].
  - intros [= -> <-]. exists x, fx. by split; [left|].
Qed.

Lemma all_cat_head r1 r2 s c o l :
  all (Cat r1 r2) s c = o :: l ->
  exists o1 l', In o1 (all r1 s c) /\ all r2 o1.1 o1.2 = o :: l'.
Proof. simpl. intros H. apply flat_map_head in H. exact H. Qed.

Lemma star_all_S step n s c :
  star_all step (S n) s c =
  flat_map (fun o : outcome =>
              if Nat.ltb (length o.1) (length s)
              then star_all step n o.1 o.2 else [])
           (step s c) ++ [(s, c)].
Proof. reflexivity. Qed.

Lemma star_cls_head p n s c :
  (length s <= n)%nat ->
  exists t l, star_all (all (Cls p)) n s c = (t, c) :: l /\ stops p t.
Proof.
  revert s. induction n as [|n IH]; intros s Hn.
  - destruct s; [|simpl in Hn; lia]. simpl. by exists [], [].
  - destruct s as [|x s]; [rewrite star_all_nil; by exists [], []|].
    rewrite star_all_S.
    change (all (Cls p) (x :: s) c) with (if p x then [(s, c)] else []).
    destruct (p x) eqn:Hp.
    + cbn [flat_map fst snd].
      assert (Nat.ltb (length s) (length (x :: s)) = true) as ->
        by (apply Nat.ltb_lt; simpl; lia).
      destruct (IH s) as (t & l & -> & Ht); [simpl in Hn; lia|].
      simpl. eauto.
    + exists (x :: s), []. by split.
Qed.

Lemma plus_cls_head p s c o l :
  all (Plus (Cls p)) s c = o :: l -> stops p o.1.
Proof.
  unfold Plus. intros H. apply all_cat_head in H.
  destruct H as (o1 & l' & _ & H).
  change (star_all (all (Cls p)) (length o1.1) o1.1 o1.2 = o :: l') in H.
  destruct (star_cls_head p (length o1.1) o1.1 o1.2) as (t & l0 & Ht & Hst); [lia|].
  rewrite Ht in H. by injection H as <- _.
Qed.

Lemma all_grp_head i r s c o l :
  all (Grp i r) s c = o :: l ->
  exists o1 l1, all r s c = o1 :: l1 /\ o.1 = o1.1.
Proof.
  simpl. destruct (all r s c) as [|o1 l1]; [done|]. simpl.
  intros [= <- _]. by exists o1, l1.
Qed.

Ltac peel H :=
  let o1 := fresh "o" in let l' := fresh "l" in
  apply all_cat_head in H; destruct H as (o1 & l' & _ & H).

(** The rest capture runs to the end of its line. *)
Lemma match_rest_maximal s m :
  match_at pattern false s = Some m -> stops dot (m_after m).
Proof.
  intros Hm. apply match_at_Some in Hm. destruct Hm as (_ & _ & l & H).
  unfold pattern in H. do 12 peel H.
  apply all_grp_head in H. destruct H as (o' & l' & H & Heq).
  apply plus_cls_head in H. simpl in Heq. by rewrite Heq.
Qed.

(** ** Where the hits of a scan come from *)

Lemma scan_hits r s m : never_empty r ->
  In m (hits (scan r s)) ->
  exists pre t, s = pre ++ t /\ match_at r false t = Some m.
Proof.
  intros Hne. remember (length s) as n eqn:Hn. revert s Hn.
  induction n as [n IH] using lt_wf_ind. intros s -> Hin.
  rewrite (scan_eq r s Hne) in Hin.
  destruct (match_at r false s) as [m0|] eqn:Hm0.
  - simpl in Hin. destruct Hin as [->|Hin]; [by exists [], s|].
    pose proof (match_at_shorter _ _ _ Hne Hm0) as [_ Hlt].
    destruct (IH _ Hlt _ eq_refl Hin) as (pre & t & Ht & Hm).
    apply match_at_Some in Hm0. destruct Hm0 as (Hs & _).
    exists (m_whole m0 ++ pre), t. split; [|done].
    rewrite Hs at 1. rewrite Ht. by rewrite app_assoc.
  - destruct s as [|x s]; [destruct Hin|]. simpl in Hin.
    destruct (IH (length s) (Nat.lt_succ_diag_r _) s eq_refl Hin) as (pre & t & Ht & Hm).
    exists (x :: pre), t. by rewrite Ht.
Qed.

Lemma sub_no_match r f s : never_empty r ->
  (forall pre t, s = pre ++ t -> match_at r false t = None) -> sub r f s = s.
Proof.
  intros Hne. induction s as [|x s IH]; intros Hno; [by apply sub_nil|].
  rewrite sub_keep; [|done|by apply (Hno [])].
  f_equal. apply IH. intros pre t ->. by apply (Hno (x :: pre)).
Qed.

(** ** [re.findall] against the extraction rule *)

Lemma span_app p a b :
  forallb p a = true -> stops p b -> span p (a ++ b) = (a, b).
Proof.
  intros Ha Hb. induction a as [|x a IH]; simpl.
  - destruct b as [|y b]; [done|]. simpl in Hb. simpl. by rewrite Hb.
  - simpl in Ha. apply andb_true_iff in Ha. destruct Ha as [Hx Ha].
    rewrite Hx, (IH Ha). done.
Qed.

Lemma span_spec p u :
  u = (span p u).1 ++ (span p u).2 /\ forallb p (span p u).1 = true /\
  stops p (span p u).2.
Proof.
  induction u as [|x u IH]; simpl; [done|].
  destruct (p x) eqn:Hp; simpl; [|done].
  destruct IH as (Hu & Ha & Hb). rewrite Hp, Ha. by rewrite <- Hu.
Qed.

Lemma run_of_inv p u :
  run_of p u = true -> exists x u', u = x :: u' /\ p x = true /\ forallb p u = true.
Proof.
  unfold run_of. destruct u as [|x u']; simpl; [done|].
  intros H. apply andb_true_iff in H. destruct H as [Hx Hu].
  exists x, u'. by rewrite Hx, Hu.
Qed.

Lemma parses_param_pattern u c c' :
  parses param_pattern u c c' <->
  exists n ws t, run_of is_word n = true /\ run_of is_space ws = true /\
                 run_of is_word t = true /\
                 u = [lparen] ++ n ++ ws ++ t ++ [rparen] /\
                 c' = (2%nat, t) :: (1%nat, n) :: c.
Proof.
  unfold param_pattern. split.
  - intros H.
    split_cat H H1. apply parses_lit_inv in H1. destruct H1 as [-> ->].
    split_cat H H1. apply parses_grp_inv in H1. destruct H1 as (c1 & H1 & ->).
    apply run_of_parses in H1. destruct H1 as [Hn ->].
    split_cat H H1. apply run_of_parses in H1. destruct H1 as [Hws ->].
    split_cat H H1. apply parses_grp_inv in H1. destruct H1 as (c1 & H1 & ->).
    apply run_of_parses in H1. destruct H1 as [Ht ->].
    apply parses_lit_inv in H. destruct H as [-> ->].
    match goal with
    | |- context [ [lparen] ++ ?n ++ ?ws ++ ?t ++ [rparen] ] => by exists n, ws, t
    end.
  - intros (n & ws & t & Hn & Hws & Ht & -> & ->).
    eapply P_cat; [apply parses_lit|].
    eapply P_cat; [apply P_grp; by apply run_of_parses|].
    eapply P_cat; [by apply run_of_parses|].
    eapply P_cat; [apply P_grp; by apply run_of_parses|].
    apply parses_lit.
Qed.

Lemma param_pattern_never_empty : never_empty param_pattern.
Proof.
  intros c c' H. apply parses_param_pattern in H.
  destruct H as (n & ws & t & _ & _ & _ & Hu & _). discriminate Hu.
Qed.

Lemma spec_pair_at_inv s n t :
  spec_pair_at s = Some (n, t) ->
  exists ws after, run_of is_word n = true /\ run_of is_space ws = true /\
                   run_of is_word t = true /\
                   s = ([lparen] ++ n ++ ws ++ t ++ [rparen]) ++ after.
Proof.
  unfold spec_pair_at. destruct s as [|x s1]; [done|].
  destruct (span_spec is_word s1) as (E1 & F1 & _).
  destruct (span_spec is_space (span is_word s1).2) as (E2 & F2 & _).
  destruct (span_spec is_word (span is_space (span is_word s1).2).2) as (E3 & F3 & _).
  set (name := span is_word s1) in *.
  set (ws := span is_space name.2) in *.
  set (typ := span is_word ws.2) in *.
  destruct typ.2 as [|y after] eqn:Ety; [done|].
  destruct (_ && _) eqn:Hc; [|done]. intros [= <- <-].
  rewrite !andb_true_iff in Hc. destruct Hc as ((((Hx & Hn) & Hw) & Ht) & Hy).
  apply N.eqb_eq in Hx, Hy. subst x y.
  exists ws.1, after. unfold run_of. rewrite Hn, Hw, Ht, F1, F2, F3.
  repeat split. cbn [app]. f_equal. rewrite <- !app_assoc. cbn [app].
  rewrite <- E3, <- E2. exact E1.
Qed.

Lemma forallb_imp {A} (p q : A -> bool) l :
  (forall x, p x = true -> q x = true) -> forallb p l = true -> forallb q l = true.
Proof.
  intros Hpq. induction l as [|x l IH]; simpl; [done|].
  rewrite !andb_true_iff. intros [Hx Hl]. split; [by apply Hpq|by apply IH].
Qed.

Lemma word_not_lparen x : is_word x = true -> not_lparen x = true.
Proof.
  unfold not_lparen. destruct (N.eqb_spec x lparen) as [->|]; [|done].
  intros H. by vm_compute in H.
Qed.

Lemma space_not_lparen x : is_space x = true -> not_lparen x = true.
Proof.
  unfold not_lparen. destruct (N.eqb_spec x lparen) as [->|]; [|done].
  intros H. by vm_compute in H.
Qed.

Lemma run_of_forallb p u : run_of p u = true -> forallb p u = true.
Proof. unfold run_of. rewrite andb_true_iff. by intros [_ H]. Qed.

Lemma findall2_eq r s : never_empty r ->
  findall2 r s =
  match match_at r false s with
  | Some m => (group 1 (m_groups m), group 2 (m_groups m)) :: findall2 r (m_after m)
  | None => match s with [] => [] | _ :: s' => findall2 r s' end
  end.
Proof.
  intros Hne. unfold findall2. rewrite (scan_eq r s Hne).
  destruct (match_at r false s); [reflexivity|]. by destruct s.
Qed.

Lemma spec_pair_at_not_lparen x s :
  not_lparen x = true -> spec_pair_at (x :: s) = None.
Proof.
  unfold not_lparen, spec_pair_at. intros Hx. apply negb_true_iff in Hx.
  rewrite Hx. simpl. by destruct (span _ _).2.
Qed.

Lemma spec_pairs_skip w t :
  forallb not_lparen w = true -> spec_pairs (w ++ t) = spec_pairs t.
Proof.
  induction w as [|x w IH]; [done|]. simpl forallb. rewrite andb_true_iff.
  intros [Hx Hw]. cbn [app spec_pairs].
  rewrite (spec_pair_at_not_lparen x (w ++ t) Hx). by apply IH.
Qed.

Section Disjoint.

(** Word characters and whitespace are disjoint classes of the Unicode
    database. *)
Hypothesis uni_disjoint : forall x, uword x && uspace x = false.

Lemma word_not_space x : is_word x = true -> is_space x = false.
Proof.
  unfold is_word, is_space. destruct (x <? 128) eqn:Hx.
  - unfold ascii_word, ascii_space, underscore. intros H.
    rewrite !orb_true_iff, !andb_true_iff, !N.leb_le, N.eqb_eq in H.
    apply orb_false_iff. split; apply andb_false_iff;
      rewrite !N.leb_gt; lia.
  - intros H. specialize (uni_disjoint x). rewrite H in uni_disjoint.
    exact uni_disjoint.
Qed.

Lemma space_not_word x : is_space x = true -> is_word x = false.
Proof.
  intros H. destruct (is_word x) eqn:Hw; [|done].
  apply word_not_space in Hw. congruence.
Qed.

(** A text of the shape is read back by the maximal-run rule. *)
Lemma spec_pair_at_shape n ws t after :
  run_of is_word n = true -> run_of is_space ws = true ->
  run_of is_word t = true ->
  spec_pair_at (([lparen] ++ n ++ ws ++ t ++ [rparen]) ++ after) = Some (n, t).
Proof.
  intros Hn Hws Ht.
  destruct (run_of_inv _ _ Hn) as (xn & n' & En & Hxn & Hn').
  destruct (run_of_inv _ _ Hws) as (xw & ws' & Ew & Hxw & Hws').
  destruct (run_of_inv _ _ Ht) as (xt & t' & Et & Hxt & Ht').
  unfold spec_pair_at. cbn [app]. rewrite <- !app_assoc.
  rewrite (span_app is_word n); [|done|].
  2:{ rewrite Ew. simpl. by apply space_not_word. }
  cbn [fst snd].
  rewrite (span_app is_space ws); [|done|].
  2:{ rewrite Et. simpl. by apply word_not_space. }
  cbn [fst snd].
  rewrite (span_app is_word t); [|done|done].
  cbn [fst snd app]. rewrite En, Ew, Et. reflexivity.
Qed.

Lemma match_param s m :
  match_at param_pattern false s = Some m ->
  spec_pair_at s = Some (group 1 (m_groups m), group 2 (m_groups m)) /\
  exists w, s = (lparen :: w) ++ m_after m /\ forallb not_lparen w = true.
Proof.
  intros Hm. apply match_at_Some in Hm. destruct Hm as (Hs & Hp & _).
  apply parses_param_pattern in Hp.
  destruct Hp as (n & ws & t & Hn & Hws & Ht & Hw & ->).
  rewrite Hs, Hw. simpl group. split; [by apply spec_pair_at_shape|].
  exists (n ++ ws ++ t ++ [rparen]). split; [done|].
  apply run_of_forallb in Hn, Hws, Ht.
  rewrite !forallb_app. rewrite !andb_true_iff. repeat split.
  - eapply forallb_imp; [apply word_not_lparen|exact Hn].
  - eapply forallb_imp; [apply space_not_lparen|exact Hws].
  - eapply forallb_imp; [apply word_not_lparen|exact Ht].
Qed.

(** [re.findall] with the parameter pattern finds exactly the pairs of
    the maximal-run rule, in the same order. *)
Lemma findall2_spec_pairs s : findall2 param_pattern s = spec_pairs s.
Proof.
  remember (length s) as k eqn:Hk. revert s Hk.
  induction k as [k IH] using lt_wf_ind. intros s ->.
  rewrite (findall2_eq _ s param_pattern_never_empty).
  destruct (match_at param_pattern false s) as [m|] eqn:Hm.
  - pose proof (match_at_shorter _ _ _ param_pattern_never_empty Hm) as [_ Hlt].
    destruct (match_param s m Hm) as (Hpair & w & Hs & Hw).
    rewrite (IH _ Hlt _ eq_refl).
    rewrite Hs in Hpair |- *. cbn [app spec_pairs] in Hpair |- *.
    rewrite Hpair. f_equal. symmetry. by apply spec_pairs_skip.
  - destruct s as [|x s]; [done|].
    rewrite (IH (length s) (Nat.lt_succ_diag_r _) s eq_refl).
    cbn [spec_pairs]. destruct (spec_pair_at (x :: s)) as [[n t]|] eqn:Hp; [|done].
    exfalso. apply match_at_None in Hm. apply Hm.
    apply spec_pair_at_inv in Hp. destruct Hp as (ws & after & Hn & Hws & Ht & ->).
    exists ([lparen] ++ n ++ ws ++ t ++ [rparen]), after, [(2%nat, t); (1%nat, n)].
    split; [done|]. apply parses_param_pattern. by exists n, ws, t.
Qed.

End Disjoint.

(** ** The shape of a replacement *)

Lemma sig_text_split g :
  sig_text g = lparen :: sig_head g ++ lparen :: sg_params g ++ sig_tail g.
Proof. unfold sig_text, sig_head, sig_tail. simpl. by rewrite <- !app_assoc. Qed.

Lemma sig_ok_inv g :
  sig_ok g = true ->
  run_of is_space (sg_ws1 g) = true /\ run_of is_word (sg_name g) = true /\
  run_of is_space (sg_ws2 g) = true /\ region_ok (sg_params g) = true /\
  run_of is_space (sg_ws3 g) = true /\ run_of is_space (sg_ws4 g) = true /\
  run_of dot (sg_rest g) = true.
Proof. unfold sig_ok. rewrite !andb_true_iff. tauto. Qed.

Lemma sig_head_wos g :
  sig_ok g = true -> forallb word_or_space (sig_head g) = true.
Proof.
  intros Hok. apply sig_ok_inv in Hok.
  destruct Hok as (H1 & H2 & H3 & _).
  apply run_of_forallb in H1, H2, H3. unfold sig_head.
  rewrite !forallb_app, !andb_true_iff. repeat split.
  - eapply forallb_imp; [|exact H1]. intros x Hx. unfold word_or_space.
    rewrite Hx. apply orb_true_r.
  - eapply forallb_imp; [|exact H2]. intros x Hx. unfold word_or_space.
    by rewrite Hx.
  - eapply forallb_imp; [|exact H3]. intros x Hx. unfold word_or_space.
    rewrite Hx. apply orb_true_r.
Qed.

Lemma wos_not_rparen x : word_or_space x = true -> not_rparen x = true.
Proof.
  unfold word_or_space, not_rparen. destruct (N.eqb_spec x rparen) as [->|]; [|done].
  intros H. by vm_compute in H.
Qed.

Lemma wos_not_lparen x : word_or_space x = true -> not_lparen x = true.
Proof.
  unfold word_or_space. intros H. apply orb_true_iff in H.
  destruct H; [by apply word_not_lparen|by apply space_not_lparen].
Qed.

(** Two texts that agree are cut at the same first character outside a
    class. *)
Lemma first_stop (q : char -> bool) u1 a v1 u2 b v2 :
  forallb q u1 = true -> forallb q u2 = true -> q a = false -> q b = false ->
  u1 ++ a :: v1 = u2 ++ b :: v2 -> u1 = u2 /\ a = b /\ v1 = v2.
Proof.
  revert u2. induction u1 as [|x u1 IH]; intros u2 H1 H2 Ha Hb E.
  - destruct u2 as [|y u2]; simpl in E.
    + by injection E as -> ->.
    + injection E as -> _. simpl in H2. apply andb_true_iff in H2.
      destruct H2 as [Hy _]. congruence.
  - simpl in H1. apply andb_true_iff in H1. destruct H1 as [Hx H1].
    destruct u2 as [|y u2]; simpl in E.
    + injection E as -> _. congruence.
    + injection E as -> E. simpl in H2. apply andb_true_iff in H2.
      destruct H2 as [_ H2]. destruct (IH u2 H1 H2 Ha Hb E) as (-> & -> & ->).
      done.
Qed.

Lemma findall2_words s p :
  In p (findall2 param_pattern s) ->
  forallb is_word p.1 = true /\ forallb is_word p.2 = true.
Proof.
  unfold findall2. intros Hin. apply in_map_iff in Hin.
  destruct Hin as (m & <- & Hm).
  apply (scan_hits _ _ _ param_pattern_never_empty) in Hm.
  destruct Hm as (pre & t & _ & Hm). apply match_at_Some in Hm.
  destruct Hm as (_ & Hp & _). apply parses_param_pattern in Hp.
  destruct Hp as (n & ws & t' & Hn & _ & Ht & _ & ->). simpl.
  split; by apply run_of_forallb.
Qed.

Lemma join_wos ps :
  (forall p, In p ps -> forallb is_word p.1 = true /\ forallb is_word p.2 = true) ->
  forallb word_or_space
    (join [space] (List.map (fun p : text * text => p.1 ++ [space] ++ p.2) ps)) = true.
Proof.
  assert (forall u, forallb is_word u = true -> forallb word_or_space u = true) as Hw.
  { intros u. apply forallb_imp. intros x Hx. unfold word_or_space. by rewrite Hx. }
  induction ps as [|p ps IH]; intros Hps; [done|].
  destruct (Hps p (or_introl eq_refl)) as [H1 H2].
  assert (forallb word_or_space (p.1 ++ [space] ++ p.2) = true) as Hp.
  { rewrite !forallb_app, (Hw _ H1), (Hw _ H2). reflexivity. }
  destruct ps as [|p' ps']; [exact Hp|].
  change (forallb word_or_space
            ((p.1 ++ [space] ++ p.2) ++ [space] ++
             join [space] (List.map (fun p : text * text => p.1 ++ [space] ++ p.2)
                                    (p' :: ps'))) = true).
  rewrite forallb_app, Hp. rewrite forallb_app.
  rewrite IH; [reflexivity|]. intros q Hq. apply Hps. by right.
Qed.

(** The replacement of a match: the keyword, the name and the flattened
    parameters, in word and space characters only, then the arrow and the
    rest. *)
Lemma replace_params_shape m g :
  sig_ok g = true -> m_groups m = sig_caps g [] ->
  exists r0, replace_params m = (102 :: r0) ++ minus :: gt :: space :: sg_rest g /\
             forallb word_or_space r0 = true.
Proof.
  intros Hok Hc. apply sig_ok_inv in Hok. destruct Hok as (_ & Hn & _).
  apply run_of_forallb in Hn.
  assert (forallb word_or_space (sg_name g) = true) as Hn'.
  { eapply forallb_imp; [|exact Hn]. intros x Hx. unfold word_or_space. by rewrite Hx. }
  unfold replace_params. rewrite Hc. cbn [sig_caps group Nat.eqb].
  destruct (findall2 param_pattern (sg_params g)) as [|p ps] eqn:Hps.
  - exists ([110; space] ++ sg_name g ++ [space]). split.
    + unfold fn_kw, arrow. simpl. by rewrite <- !app_assoc.
    + rewrite !forallb_app, Hn'. reflexivity.
  - cbn [is_nil].
    exists ([110; space] ++ sg_name g ++ [space] ++
            join [space] (List.map (fun p : text * text => p.1 ++ [space] ++ p.2) (p :: ps))
            ++ [space]). split.
    + unfold fn_kw, arrow. simpl. rewrite <- !app_assoc. simpl.
      by rewrite <- !app_assoc.
    + rewrite !forallb_app, Hn', join_wos; [reflexivity|].
      intros q Hq. apply (findall2_words (sg_params g)). by rewrite Hps.
Qed.

(** ** A replacement creates no match to its left *)

Lemma region_ok_prefix u v : region_ok (u ++ v) = true -> region_ok u = true.
Proof.
  unfold region_ok. intros H.
  assert (is_Some (run false (u ++ v))) as Hs
    by (destruct (run false (u ++ v)); [eauto|done]).
  apply run_prefix in Hs. by destruct Hs as [b ->].
Qed.

Lemma run_any b u : is_Some (run false u) -> is_Some (run b u).
Proof. destruct b; [apply run_mono|done]. Qed.

Lemma region_ok_glue u w v :
  region_ok u = true -> forallb not_rparen w = true -> region_ok v = true ->
  region_ok (u ++ w ++ v) = true.
Proof.
  unfold region_ok. intros Hu Hw Hv. rewrite run_app.
  destruct (run false u) as [b1|]; [|done]. rewrite run_app.
  destruct (run_norp b1 w Hw) as (b2 & -> & _).
  assert (is_Some (run false v)) as Hs by (destruct (run false v); [eauto|done]).
  apply (run_any b2) in Hs. by destruct Hs as [b3 ->].
Qed.

Ltac list_norm := repeat (progress cbn [app] || rewrite <- app_assoc).

(** A signature may be cut short after the first character of its rest. *)
Lemma occurs_short_rest g y t :
  sig_ok g = true -> dot y = true ->
  occurs_at pattern
    (lparen :: sig_head g ++ lparen :: sg_params g ++ rparen :: sg_ws3 g ++
     minus :: gt :: sg_ws4 g ++ y :: t).
Proof.
  intros Hok Hy. apply sig_ok_inv in Hok.
  destruct Hok as (H1 & H2 & H3 & H4 & H5 & H6 & _).
  apply occurs_at_pattern.
  exists (MkSig (sg_ws1 g) (sg_name g) (sg_ws2 g) (sg_params g) (sg_ws3 g)
                (sg_ws4 g) [y]), t.
  split.
  - unfold sig_ok. cbn [sg_ws1 sg_name sg_ws2 sg_params sg_ws3 sg_ws4 sg_rest].
    rewrite H1, H2, H3, H4, H5, H6. unfold run_of. simpl. by rewrite Hy.
  - unfold sig_text, sig_head. cbn [sg_ws1 sg_name sg_ws2 sg_params sg_ws3 sg_ws4 sg_rest].
    by list_norm.
Qed.

Lemma spaces_no_f (ws a b : list N) :
  forallb is_space ws = true -> ws = a ++ 102 :: b -> False.
Proof.
  intros H ->. rewrite forallb_app in H. apply andb_true_iff in H.
  destruct H as [_ H]. cbn [forallb] in H. apply andb_true_iff in H.
  destruct H as [H _]. by vm_compute in H.
Qed.

Ltac clash E :=
  exfalso; apply (f_equal (hd 0)) in E; vm_compute in E; discriminate E.

Lemma revive G r0 tail S0 :
  G <> [] -> forallb word_or_space r0 = true ->
  occurs_at pattern (G ++ (102 :: r0) ++ minus :: tail) ->
  occurs_at pattern S0 ->
  occurs_at pattern (G ++ S0).
Proof.
  intros HG Hr0 Hnew Hold.
  apply occurs_at_pattern in Hnew. destruct Hnew as (g & t & Hok & E).
  apply occurs_at_pattern in Hold. destruct Hold as (gm & tm & Hokm & ->).
  pose proof (sig_head_wos g Hok) as Hhead.
  pose proof (sig_head_wos gm Hokm) as Hheadm.
  pose proof (sig_ok_inv g Hok) as (Hw1 & Hnm & Hw2 & Hreg & Hw3 & Hw4 & Hrest).
  pose proof (sig_ok_inv gm Hokm) as (Hw1m & Hnmm & Hw2m & Hregm & Hw3m & Hw4m & Hrestm).
  rewrite sig_text_split in E.
  remember (sig_head g) as hg eqn:Ehg.
  destruct G as [|x0 G']; [done|].
  cbn [app] in E. injection E as -> E.
  rewrite <- app_assoc in E.
  apply app_eq_app in E. destruct E as [l [[EG El] | [EW El]]].
  2:{ (* the head would have to run into the replacement *)
      exfalso. rewrite EW, forallb_app in Hhead. apply andb_true_iff in Hhead.
      destruct Hhead as [_ Hl].
      assert (forallb word_or_space (102 :: r0) = true) as Hr
        by (cbn [forallb]; by rewrite Hr0).
      cbn [app] in El.
      change (102 :: r0 ++ minus :: tail) with ((102 :: r0) ++ minus :: tail) in El.
      destruct (first_stop word_or_space (102 :: r0) minus tail l lparen _
                           Hr Hl eq_refl eq_refl El) as (_ & Hc & _).
      discriminate Hc. }
  destruct l as [|y l']; [clash El|].
  cbn [app] in El. injection El as <- El.
  rewrite <- app_assoc in El.
  apply app_eq_app in El. destruct El as [l2 [[EP E2] | [EP E2]]].
  { (* the cut falls inside the parameter region *)
    assert (region_ok l' = true) as Hl'.
    { rewrite EP in Hreg. by apply region_ok_prefix in Hreg. }
    apply occurs_at_pattern.
    exists (MkSig (sg_ws1 g) (sg_name g) (sg_ws2 g)
                  (l' ++ (lparen :: sig_head gm ++ [lparen]) ++ sg_params gm)
                  (sg_ws3 gm) (sg_ws4 gm) (sg_rest gm)), tm.
    split.
    - unfold sig_ok. cbn [sg_ws1 sg_name sg_ws2 sg_params sg_ws3 sg_ws4 sg_rest].
      rewrite Hw1, Hnm, Hw2, Hw3m, Hw4m, Hrestm.
      rewrite region_ok_glue; [reflexivity|done| |done].
      cbn [forallb]. rewrite forallb_app. cbn [forallb].
      rewrite (forallb_imp _ _ _ wos_not_rparen Hheadm). reflexivity.
    - rewrite EG, Ehg. rewrite (sig_text_split gm).
      unfold sig_text, sig_head, sig_tail.
      cbn [sg_ws1 sg_name sg_ws2 sg_params sg_ws3 sg_ws4 sg_rest].
      by list_norm. }
  (* the cut falls after the parameter region *)
  unfold sig_tail in E2.
  destruct l2 as [|y2 l3]; [clash E2|].
  rewrite <- !app_assoc in E2.
  cbn [app] in E2. injection E2 as <- E2.
  apply app_eq_app in E2. destruct E2 as [l4 [[E3 E4] | [E3 E4]]].
  1:{ apply run_of_forallb in Hw3. destruct l4 as [|z l4]; [clash E4|].
      exfalso. cbn [app] in E4. injection E4 as <- _.
      by apply (spaces_no_f _ _ _ Hw3 E3). }
  destruct l4 as [|y4 l5]; [clash E4|]. cbn [app] in E4. injection E4 as <- E4.
  destruct l5 as [|y5 l6]; [clash E4|]. cbn [app] in E4. injection E4 as <- E4.
  assert (exists y t', dot y = true /\
            G' ++ sig_text gm ++ tm =
            hg ++ lparen :: sg_params g ++ rparen :: sg_ws3 g ++
            minus :: gt :: sg_ws4 g ++ y :: t') as (y & t' & Hy & EO).
  { apply app_eq_app in E4. destruct E4 as [l7 [[E5 E6] | [E5 E6]]].
    - destruct l7 as [|z l7].
      + exists lparen, (sig_head gm ++ lparen :: sg_params gm ++ sig_tail gm ++ tm).
        split; [reflexivity|]. rewrite app_nil_r in E5.
        rewrite EG, EP, E3, <- E5, (sig_text_split gm). by list_norm.
      + exfalso. apply run_of_forallb in Hw4. cbn [app] in E6.
        injection E6 as <- _. by apply (spaces_no_f _ _ _ Hw4 E5).
    - destruct l7 as [|y l7'].
      + exists lparen, (sig_head gm ++ lparen :: sg_params gm ++ sig_tail gm ++ tm).
        split; [reflexivity|]. rewrite app_nil_r in E5.
        rewrite EG, EP, E3, E5, (sig_text_split gm). by list_norm.
      + exists y, (l7' ++ sig_text gm ++ tm). split.
        * destruct (run_of_inv _ _ Hrest) as (y' & rs & Er & Hy' & _).
          rewrite Er in E6. cbn [app] in E6. by injection E6 as -> _.
        * rewrite EG, EP, E3, E5. by list_norm. }
  rewrite <- app_comm_cons. rewrite EO, Ehg. by apply occurs_short_rest.
Qed.

(** ** Scanning across a gap *)

Lemma gap_tail r x G t : gap r (x :: G) t -> gap r G t.
Proof. intros H G1 G2 -> Hne. by apply (H (x :: G1) G2). Qed.

Lemma scan_gap r G t : never_empty r -> gap r G t ->
  scan r (G ++ t) = List.map Keep G ++ scan r t.
Proof.
  intros Hne. induction G as [|x G IH]; intros Hg; [done|].
  rewrite (scan_eq r _ Hne). rewrite (Hg [] (x :: G)); [|done|done].
  cbn [app List.map]. f_equal. apply IH. by eapply gap_tail.
Qed.

Lemma sub_keeps (f : rmatch -> list N) G : flat_map
    (fun p => match p with Hit m => f m | Keep x => [x] end) (List.map Keep G) = G.
Proof. induction G as [|x G IH]; [done|]. simpl. by rewrite IH. Qed.

Lemma sub_gap r f G t m : never_empty r -> gap r G t ->
  match_at r false t = Some m ->
  sub r f (G ++ t) = G ++ f m ++ sub r f (m_after m).
Proof.
  intros Hne Hg Hm. unfold sub at 1. rewrite (scan_gap r G t Hne Hg).
  rewrite flat_map_app, sub_keeps. f_equal. by apply sub_hit.
Qed.

Lemma hits_gap r G t m : never_empty r -> gap r G t ->
  match_at r false t = Some m ->
  hits (scan r (G ++ t)) = m :: hits (scan r (m_after m)).
Proof.
  intros Hne Hg Hm. rewrite (scan_gap r G t Hne Hg). unfold hits.
  rewrite flat_map_app. rewrite (flat_map_all_nil _ (List.map Keep G)).
  - rewrite (scan_eq r t Hne), Hm. reflexivity.
  - intros p Hp. apply in_map_iff in Hp. by destruct Hp as (x & <- & _).
Qed.

(** Either no match starts anywhere in [s], or [s] is a gap followed by
    its first match. *)
Lemma first_match_split r s :
  (forall pre t, s = pre ++ t -> match_at r false t = None) \/
  exists G t m, s = G ++ t /\ gap r G t /\ match_at r false t = Some m.
Proof.
  induction s as [|x s IH].
  - destruct (match_at r false []) as [m|] eqn:Hm.
    + right. exists [], [], m. split; [done|]. split; [|done].
      intros G1 G2 HG Hne. by destruct G1, G2.
    + left. intros pre t Hs. symmetry in Hs. apply app_eq_nil in Hs.
      by destruct Hs as [_ ->].
  - destruct (match_at r false (x :: s)) as [m|] eqn:Hm.
    + right. exists [], (x :: s), m. split; [done|]. split; [|done].
      intros G1 G2 HG Hne. by destruct G1, G2.
    + destruct IH as [IH|(G & t & m & -> & Hg & Ht)].
      * left. intros pre t Hs. destruct pre as [|y pre].
        -- simpl in Hs. by subst t.
        -- injection Hs as _ Hs. by apply (IH pre).
      * right. exists (x :: G), t, m. split; [done|]. split; [|done].
        intros G1 G2 HG Hne. destruct G1 as [|y G1].
        -- simpl in HG. by subst G2.
        -- injection HG as _ HG. by apply (Hg G1).
Qed.

(** ** No match after one pass *)

Lemma match_occurs r t m : match_at r false t = Some m -> occurs_at r t.
Proof.
  intros Hm. apply match_at_Some in Hm. destruct Hm as (Hs & Hp & _).
  by exists (m_whole m), (m_after m), (m_groups m).
Qed.

Lemma occurs_at_lparen t : occurs_at pattern t -> exists t', t = lparen :: t'.
Proof.
  intros H. apply occurs_at_pattern in H. destruct H as (g & t' & _ & ->).
  rewrite sig_text_split. cbn [app]. eauto.
Qed.

Lemma no_match_not_lparen y t :
  not_lparen y = true -> match_at pattern false (y :: t) = None.
Proof.
  intros Hy. apply match_at_None. intros H. apply occurs_at_lparen in H.
  destruct H as (t' & [= -> _]). by vm_compute in Hy.
Qed.

Lemma no_match_after_gap G t m X :
  G <> [] -> gap pattern G t -> match_at pattern false t = Some m ->
  match_at pattern false (G ++ replace_params m ++ X) = None.
Proof.
  intros HG Hg Hm. apply match_at_None. intros Hocc.
  pose proof (match_occurs _ _ _ Hm) as Hold.
  destruct (match_sig t m Hm) as (g & Hok & _ & Hc & _).
  destruct (replace_params_shape m g Hok Hc) as (r0 & HR & Hr0).
  rewrite HR in Hocc. rewrite <- app_assoc in Hocc. cbn [app] in Hocc.
  change (102 :: r0 ++ minus :: gt :: space :: sg_rest g ++ X)
    with ((102 :: r0) ++ minus :: (gt :: space :: sg_rest g ++ X)) in Hocc.
  pose proof (revive G r0 _ t HG Hr0 Hocc Hold) as Hrev.
  apply (proj1 (match_at_None pattern (G ++ t))); [|done].
  by apply (Hg [] G).
Qed.


Lemma convert_gap G t m :
  gap pattern G t -> match_at pattern false t = Some m ->
  convert_function_params (G ++ t) =
  G ++ replace_params m ++ convert_function_params (m_after m).
Proof. intros Hg Hm. by apply sub_gap; [apply pattern_never_empty| |]. Qed.


(** One pass over a text without occurrences leaves it unchanged. *)
Lemma convert_fixed s :
  (forall pre t, s = pre ++ t -> match_at pattern false t = None) ->
  convert_function_params s = s.
Proof. apply sub_no_match. apply pattern_never_empty. Qed.

(** ** Rest captures that hold no further signature *)

Lemma stops_dot t : stops dot t -> t = [] \/ exists t', t = newline :: t'.
Proof.
  destruct t as [|x t]; [by left|]. simpl. unfold dot. intros H.
  apply negb_false_iff, N.eqb_eq in H. subst x. right. eauto.
Qed.

Lemma occurs_at_opens t : occurs_at pattern t -> opens_sig t = true.
Proof.
  intros H. apply occurs_at_pattern in H. destruct H as (g & t' & _ & ->).
  reflexivity.
Qed.

Lemma holds_sig_suffix a b : holds_sig (a ++ b) = false -> holds_sig b = false.
Proof.
  induction a as [|x a IH]; [done|]. cbn [app holds_sig]. intros H.
  apply orb_false_iff in H. destruct H as [_ H]. by apply IH.
Qed.

Lemma holds_sig_head t : holds_sig t = false -> opens_sig t = false.
Proof.
  destruct t as [|x t]; [done|]. cbn [holds_sig]. intros H.
  apply orb_false_iff in H. by destruct H.
Qed.

(** No match starts at a parenthesis of a rest capture that is not
    followed there by the two letters: the capture ends before a newline
    or at the end of the text. *)
Lemma no_match_in_rest b X :
  opens_sig (lparen :: b) = false ->
  (X = [] \/ exists X', X = newline :: X') ->
  ~ occurs_at pattern (lparen :: b ++ X).
Proof.
  intros Hb HX H. apply occurs_at_opens in H.
  destruct b as [|c [|d b]].
  - destruct HX as [->|(X' & ->)]; [done|]. destruct X'; by vm_compute in H.
  - destruct HX as [->|(X' & ->)]; [done|]. cbn [app opens_sig] in H.
    apply andb_true_iff in H. destruct H as [_ H]. by vm_compute in H.
  - cbn [app opens_sig] in H, Hb. congruence.
Qed.

Lemma convert_line_end X :
  (X = [] \/ exists X', X = newline :: X') ->
  convert_function_params X = [] \/
  exists Y, convert_function_params X = newline :: Y.
Proof.
  unfold convert_function_params. intros [->|(X' & ->)].
  - left. apply sub_nil, pattern_never_empty.
  - right. eexists. apply sub_keep; [apply pattern_never_empty|].
    by apply no_match_not_lparen.
Qed.

Lemma split_after_clean P R l y l2 :
  forallb not_lparen P = true -> not_lparen y = false ->
  P ++ R = l ++ y :: l2 -> exists a, R = a ++ y :: l2.
Proof.
  revert l. induction P as [|x P IH]; intros l HP Hy E.
  - by exists l.
  - cbn [forallb] in HP. apply andb_true_iff in HP. destruct HP as [Hx HP].
    destruct l as [|z l]; cbn [app] in E.
    + injection E as -> _. congruence.
    + injection E as _ E. by apply (IH l).
Qed.

(** After one pass over a text whose rest captures hold no opening
    parenthesis followed by the two letters, no match starts anywhere. *)
Lemma convert_plain s :
  rests_plain s = true ->
  forall pre t, convert_function_params s = pre ++ t ->
                match_at pattern false t = None.
Proof.
  remember (length s) as k eqn:Hk. revert s Hk.
  induction k as [k IH] using lt_wf_ind. intros s -> Hplain pre t Hs.
  destruct (first_match_split pattern s) as [Hno|(G & t0 & m & -> & Hg & Hm)].
  - unfold convert_function_params in Hs.
    rewrite (sub_no_match _ _ _ pattern_never_empty Hno) in Hs. by apply (Hno pre).
  - pose proof (match_at_shorter _ _ _ pattern_never_empty Hm) as [_ Hlt].
    unfold rests_plain, rests in Hplain.
    rewrite (hits_gap _ _ _ _ pattern_never_empty Hg Hm) in Hplain.
    cbn [forallb List.map] in Hplain. apply andb_true_iff in Hplain.
    destruct Hplain as [Hrest Hplain]. apply negb_true_iff in Hrest.
    assert (forall pre' t', convert_function_params (m_after m) = pre' ++ t' ->
                            match_at pattern false t' = None) as IHm.
    { apply (IH (length (m_after m))); [rewrite length_app; lia|done|done]. }
    destruct (match_sig t0 m Hm) as (g & Hok & _ & Hc & _).
    rewrite Hc in Hrest. cbn [sig_caps group Nat.eqb] in Hrest.
    destruct (replace_params_shape m g Hok Hc) as (r0 & HR & Hr0).
    rewrite (convert_gap G t0 m Hg Hm) in Hs.
    apply app_eq_app in Hs. destruct Hs as [l [[EG Et] | [Ep Et]]].
    + (* [t] starts in the gap *)
      subst t. destruct l as [|y l].
      * rewrite HR. cbn [app]. by apply no_match_not_lparen.
      * apply (no_match_after_gap (y :: l) t0 m); [done| |done].
        intros G1 G2 HG Hne. apply (Hg (pre ++ G1) G2); [|done].
        rewrite EG, HG. by rewrite app_assoc.
    + (* [t] starts inside the replacement or after it *)
      apply app_eq_app in Et. destruct Et as [l2 [[ER Et] | [El Ec]]].
      * subst t. destruct l2 as [|y l2]; [by apply (IHm [])|].
        destruct (not_lparen y) eqn:Hy; [cbn [app]; by apply no_match_not_lparen|].
        rewrite HR in ER.
        change ((102 :: r0) ++ minus :: gt :: space :: sg_rest g)
          with ((102 :: r0) ++ [minus; gt; space] ++ sg_rest g) in ER.
        rewrite app_assoc in ER.
        apply split_after_clean in ER; [|rewrite forallb_app|done].
        2:{ cbn [forallb]. rewrite (forallb_imp _ _ _ wos_not_lparen Hr0).
            by vm_compute. }
        destruct ER as (a & Ea). rewrite Ea in Hrest.
        apply holds_sig_suffix, holds_sig_head in Hrest.
        unfold not_lparen in Hy. apply negb_false_iff, N.eqb_eq in Hy. subst y.
        apply match_at_None. cbn [app]. apply no_match_in_rest; [done|].
        apply convert_line_end, stops_dot. by apply (match_rest_maximal t0).
      * by apply (IHm l2).
Qed.

(** ** Leftmost search *)

Lemma search_Some r s G m :
  search r s = Some (G, m) ->
  exists t, s = G ++ t /\ gap r G t /\ match_at r false t = Some m.
Proof.
  revert G. induction s as [|x s IH]; intros G; simpl.
  - destruct (match_at r false []) as [m0|] eqn:Hm; [|done].
    intros [= <- <-]. exists []. split; [done|]. split; [|done].
    intros G1 G2 HG Hne. by destruct G1, G2.
  - destruct (match_at r false (x :: s)) as [m0|] eqn:Hm.
    + intros [= <- <-]. exists (x :: s). split; [done|]. split; [|done].
      intros G1 G2 HG Hne. by destruct G1, G2.
    + destruct (search r s) as [[G0 m0]|]; [|done]. intros [= <- <-].
      destruct (IH G0 eq_refl) as (t & -> & Hg & Ht).
      exists t. split; [done|]. split; [|done].
      intros G1 G2 HG Hne. destruct G1 as [|y G1].
      * simpl in HG. by subst G2.
      * injection HG as _ HG. by apply (Hg G1).
Qed.

Lemma occursb_false r s :
  occursb r s = false ->
  forall pre t, s = pre ++ t -> match_at r false t = None.
Proof.
  induction s as [|x s IH]; simpl.
  - destruct (match_at r false []) eqn:Hm; [done|]. intros _ pre t Hs.
    symmetry in Hs. apply app_eq_nil in Hs. by destruct Hs as [_ ->].
  - destruct (match_at r false (x :: s)) eqn:Hm; [done|]. intros H pre t Hs.
    destruct pre as [|y pre].
    + simpl in Hs. by subst t.
    + injection Hs as _ Hs. by apply (IH H pre).
Qed.

Lemma occurs_occursb r s : occurs r s -> occursb r s = true.
Proof.
  intros (pre & t & Hs & Hocc). destruct (occursb r s) eqn:Hb; [done|].
  exfalso. pose proof (occursb_false r s Hb pre t Hs) as Hno.
  by apply match_at_None in Hno.
Qed.

(** ** The claims about the Signature Rewriter *)

(** C1, amended.  Applying [convert_function_params] twice yields the
    same result as applying it once, for every input text in which no
    rest capture of a matched signature holds an opening parenthesis
    directly followed by the letters f and n. *)
Theorem idempotent_when_rests_plain s :
  rests_plain s = true ->
  convert_function_params (convert_function_params s)
  = convert_function_params s.
Proof. intros H. apply convert_fixed. by apply convert_plain. Qed.

(** C2, amended.  The rest capture of every matched signature is
    non-empty, holds no newline and extends greedily to the end of its
    line: the text after the match is empty or starts with a newline. *)
Theorem rest_ends_at_line_end s m :
  In m (hits (scan pattern s)) ->
  run_of dot (group 4 (m_groups m)) = true /\
  (m_after m = [] \/ exists t', m_after m = newline :: t') /\
  exists pre w, s = pre ++ (w ++ group 4 (m_groups m)) ++ m_after m /\
                m_whole m = w ++ group 4 (m_groups m).
Proof.
  intros Hin. apply (scan_hits _ _ _ pattern_never_empty) in Hin.
  destruct Hin as (pre & t & -> & Hm).
  pose proof (match_rest_maximal t m Hm) as Hst.
  destruct (match_sig t m Hm) as (g & Hok & Hw & Hc & Ht).
  rewrite Hc. cbn [sig_caps group Nat.eqb].
  apply sig_ok_inv in Hok. destruct Hok as (_ & _ & _ & _ & _ & _ & Hrest).
  split; [exact Hrest|]. split; [by apply stops_dot|].
  exists pre, ([lparen] ++ [102; 110] ++ sg_ws1 g ++ sg_name g ++ sg_ws2 g ++
               [lparen] ++ sg_params g ++ [rparen] ++ sg_ws3 g ++ [minus] ++
               [gt] ++ sg_ws4 g).
  assert (sig_text g =
          ([lparen] ++ [102; 110] ++ sg_ws1 g ++ sg_name g ++ sg_ws2 g ++
           [lparen] ++ sg_params g ++ [rparen] ++ sg_ws3 g ++ [minus] ++
           [gt] ++ sg_ws4 g) ++ sg_rest g) as E.
  { unfold sig_text. by list_norm. }
  split; [|by rewrite Hw]. by rewrite Ht, E.
Qed.

(** C3.  On the OLD example of the docstring the rewriter returns the
    NEW example of the docstring without its opening marker. *)
Theorem marker_dropped :
  convert_function_params doc_old = drop 1 doc_new /\
  convert_function_params doc_old <> doc_new.
Proof. split; [by vm_compute|]. vm_compute. discriminate. Qed.

(** C4.  The rewriter maps "(fn add ((a i32) (b i32)) -> i32" to
    "fn add a i32 b i32 -> i32". *)
Theorem multi_parameter_case :
  convert_function_params (str "(fn add ((a i32) (b i32)) -> i32")
  = str "fn add a i32 b i32 -> i32".
Proof. by vm_compute. Qed.

(** C5.  The rewriter maps "(fn main () -> i32" to "fn main -> i32";
    whenever no parameter is extracted, the replacement is the keyword, a
    space, the name, a space, the arrow, a space and the rest. *)
Theorem zero_parameter_case :
  convert_function_params (str "(fn main () -> i32") = str "fn main -> i32" /\
  forall m, findall2 param_pattern (group 3 (m_groups m)) = [] ->
    replace_params m =
    group 1 (m_groups m) ++ [space] ++ group 2 (m_groups m) ++ [space] ++
    [minus; gt] ++ [space] ++ group 4 (m_groups m).
Proof.
  split; [by vm_compute|]. intros m H. unfold replace_params. by rewrite H.
Qed.

(** C6.  The extracted parameters are exactly the occurrences, at any
    position of the parameter-list region and in left-to-right order, of
    an opening parenthesis, a maximal run of word characters, whitespace,
    a maximal run of word characters and a closing parenthesis; nothing
    else of the region reaches the output, and the replacement lists the
    names and types in that order, separated by single spaces. *)
Theorem extraction_is_maximal_run_rule
    (Hdisj : forall x, uword x && uspace x = false) m :
  let region := group 3 (m_groups m) in
  findall2 param_pattern region = spec_pairs region /\
  replace_params m =
  group 1 (m_groups m) ++ [space] ++ group 2 (m_groups m) ++
  match spec_pairs region with
  | [] => []
  | ps => [space] ++
          join [space] (List.map (fun p : list N * list N => p.1 ++ [space] ++ p.2) ps)
  end ++ arrow ++ group 4 (m_groups m).
Proof.
  intros region. split; [by apply findall2_spec_pairs|].
  unfold replace_params. fold region.
  rewrite (findall2_spec_pairs Hdisj region).
  destruct (spec_pairs region) as [|p ps]; [done|].
  cbn [is_nil]. by list_norm.
Qed.

(** C7.  A text in which the old-syntax pattern matches no substring is
    returned unchanged. *)
Theorem pass_through s :
  ~ occurs pattern s -> convert_function_params s = s.
Proof.
  intros Hno. apply convert_fixed. intros pre t Hs. apply match_at_None.
  intros Hocc. apply Hno. by exists pre, t.
Qed.

(** C8, amended.  The replacement of a matched signature ends at the end
    of the line that holds its rest capture: the text before the leftmost
    match is kept, the match is replaced, and the text after the match,
    which is empty or starts with a newline, is rewritten on its own; the
    rest capture holds no newline. *)
Theorem replacement_ends_at_line_end s G m :
  search pattern s = Some (G, m) ->
  convert_function_params s
  = G ++ replace_params m ++ convert_function_params (m_after m) /\
  (m_after m = [] \/ exists t', m_after m = newline :: t') /\
  forallb dot (group 4 (m_groups m)) = true.
Proof.
  intros Hs. apply search_Some in Hs. destruct Hs as (t & -> & Hg & Hm).
  split; [by apply convert_gap|].
  split; [apply stops_dot; by apply (match_rest_maximal t)|].
  destruct (match_sig t m Hm) as (g & Hok & _ & Hc & _).
  rewrite Hc. cbn [sig_caps group Nat.eqb].
  apply sig_ok_inv in Hok. destruct Hok as (_ & _ & _ & _ & _ & _ & Hrest).
  by apply run_of_forallb.
Qed.

(** ** The claims about [main] *)

Lemma convert_file_missing path w :
  files w !! path = None ->
  convert_file path w =
  (MkWorld (files w) (stdout w ++ [Skip (str_Path path)])
           (calls w ++ [IoExists path]), Ok tt).
Proof.
  intros H. unfold convert_file, path_exists, bind, call, print. simpl.
  by rewrite H.
Qed.

Lemma convert_file_nostat path w :
  files w !! path = Some NoStat ->
  convert_file path w =
  (MkWorld (files w) (stdout w) (calls w ++ [IoExists path]),
   Raise (FileError path)).
Proof.
  intros H. unfold convert_file, path_exists, bind, call. simpl.
  by rewrite H.
Qed.

Lemma convert_file_unreadable path writable w :
  files w !! path = Some (MkNode None writable) ->
  convert_file path w =
  (MkWorld (files w) (stdout w) (calls w ++ [IoExists path; IoRead path]),
   Raise (FileError path)).
Proof.
  intros H. unfold convert_file, path_exists, read_text, bind, call. simpl.
  rewrite H. simpl. rewrite H. by rewrite <- app_assoc.
Qed.

(** The turn of the loop for a file that can be read. *)
Lemma convert_file_readable path content writable w :
  files w !! path = Some (MkNode (Some content) writable) ->
  convert_file path w =
  if bool_decide (content <> convert_function_params content) then
    if writable then
      if check_mark then
        (MkWorld (<[path := MkNode (Some (convert_function_params content)) true]>
                    (files w))
                 (stdout w ++ [Converted (str_Path path)])
                 (calls w ++ [IoExists path; IoRead path;
                              IoWrite path (convert_function_params content)]),
         Ok tt)
      else
        (MkWorld (<[path := MkNode (Some (convert_function_params content)) true]>
                    (files w))
                 (stdout w)
                 (calls w ++ [IoExists path; IoRead path;
                              IoWrite path (convert_function_params content)]),
         Raise UnicodeEncodeError)
    else
      (MkWorld (files w) (stdout w)
               (calls w ++ [IoExists path; IoRead path;
                            IoWrite path (convert_function_params content)]),
       Raise (FileError path))
  else
    (MkWorld (files w) (stdout w ++ [Unchanged (str_Path path)])
             (calls w ++ [IoExists path; IoRead path]), Ok tt).
Proof.
  intros H.
  unfold convert_file, path_exists, read_text, write_text, bind, call, print.
  simpl. rewrite H. simpl. rewrite ?H. simpl.
  destruct (bool_decide (content <> convert_function_params content)),
    writable, check_mark; simpl; rewrite ?H; simpl; by rewrite <- !app_assoc.
Qed.

Lemma convert_file_turn path w : turn path w (convert_file path w).
Proof.
  destruct (files w !! path) as [[[content|] writable|]|] eqn:Hf.
  - rewrite (convert_file_readable path content writable w Hf).
    destruct (bool_decide_reflect (content <> convert_function_params content))
      as [Hne|Heq].
    + assert (convert_function_params content <> content) as Hne'
        by (intros E; by rewrite E in Hne).
      destruct writable; [destruct check_mark eqn:Hcm|].
      * by apply turn_write.
      * by apply turn_print_raise.
      * apply turn_raise.
        -- unfold processable. rewrite Hf. cbn [orb andb].
           rewrite orb_false_r. by apply bool_decide_eq_false_2.
        -- unfold failure. by rewrite Hf.
        -- right. right. by exists content.
    + apply dec_stable in Heq. apply turn_keep.
      * unfold processable. rewrite Hf.
        rewrite bool_decide_eq_true_2; [done|by symmetry].
      * right. split; [by right|]. by rewrite Hf.
      * done.
      * right. by left.
  - rewrite (convert_file_unreadable path writable w Hf). apply turn_raise.
    + unfold processable. by rewrite Hf.
    + unfold failure. by rewrite Hf.
    + right. by left.
  - rewrite (convert_file_nostat path w Hf). apply turn_raise.
    + unfold processable. by rewrite Hf.
    + unfold failure. by rewrite Hf.
    + by left.
  - rewrite (convert_file_missing path w Hf). apply turn_keep.
    + unfold processable. by rewrite Hf.
    + left. by split.
    + done.
    + by left.
Qed.

Lemma for_each_cons {A} (x : A) l body w :
  for_each (x :: l) body w =
  match body x w with
  | (w', Ok _) => for_each l body w'
  | (w', Raise e) => (w', Raise e)
  end.
Proof. reflexivity. Qed.


Lemma main_loop argv w :
  (2 <= length argv)%nat -> main argv w = for_each (drop 1 argv) convert_file w.
Proof. intros H. unfold main. apply Nat.ltb_ge in H. by rewrite H. Qed.

Lemma main_usage argv w :
  (length argv < 2)%nat ->
  main argv w =
  (MkWorld (files w) (stdout w ++ [Usage usage1; Usage usage2]) (calls w),
   Raise (SystemExit 1)).
Proof.
  intros H. unfold main. apply Nat.ltb_lt in H. rewrite H.
  unfold bind, print, sys_exit. simpl. by rewrite <- app_assoc.
Qed.









(** ** Further properties of the rewriter *)

Lemma occursb_true r s : occursb r s = true -> occurs r s.
Proof.
  induction s as [|x s IH]; simpl.
  - destruct (match_at r false []) as [m|] eqn:Hm; [|done]. intros _.
    exists [], []. split; [done|]. by apply (match_occurs r [] m).
  - destruct (match_at r false (x :: s)) as [m|] eqn:Hm.
    + intros _. exists [], (x :: s). split; [done|]. by apply (match_occurs r _ m).
    + intros H. destruct (IH H) as (pre & t & -> & Hocc).
      by exists (x :: pre), t.
Qed.

Lemma convert_no_occurrence s :
  ~ occurs pattern s -> convert_function_params s = s.
Proof.
  intros Hno. apply convert_fixed. intros pre t Hs. apply match_at_None.
  intros Hocc. apply Hno. by exists pre, t.
Qed.

Lemma hits_scan_eq r s : never_empty r ->
  hits (scan r s) =
  match match_at r false s with
  | Some m => m :: hits (scan r (m_after m))
  | None => match s with [] => [] | _ :: s' => hits (scan r s') end
  end.
Proof.
  intros Hne. rewrite (scan_eq r s Hne).
  destruct (match_at r false s); [reflexivity|]. by destruct s.
Qed.

Lemma run_of_length p u : run_of p u = true -> (1 <= length u)%nat.
Proof.
  intros H. destruct (run_of_inv _ _ H) as (x & u' & -> & _). simpl. lia.
Qed.

(** The pairs found in a text fit in it, each with its two parentheses
    and at least one blank. *)
Lemma findall2_weight s :
  (list_sum (List.map (fun p : list N * list N => length p.1 + length p.2 + 3)
                      (findall2 param_pattern s)) <= length s)%nat.
Proof.
  remember (length s) as k eqn:Hk. revert s Hk.
  induction k as [k IH] using lt_wf_ind. intros s ->.
  rewrite (findall2_eq _ s param_pattern_never_empty).
  destruct (match_at param_pattern false s) as [m|] eqn:Hm.
  - pose proof (match_at_shorter _ _ _ param_pattern_never_empty Hm) as [_ Hlt].
    pose proof (IH _ Hlt _ eq_refl) as IHm.
    apply match_at_Some in Hm. destruct Hm as (Hs & Hp & _).
    apply parses_param_pattern in Hp.
    destruct Hp as (n & ws & t & Hn & Hws & Ht & Hw & Hc).
    apply run_of_length in Hws.
    rewrite Hc. cbn [List.map list_sum fold_right group Nat.eqb fst snd].
    apply (f_equal length) in Hs. rewrite Hw, !length_app in Hs.
    unfold list_sum in *. simpl in Hs |- *. lia.
  - destruct s as [|x s]; [simpl; lia|].
    pose proof (IH (length s) (Nat.lt_succ_diag_r _) s eq_refl).
    unfold list_sum in *. simpl. lia.
Qed.

Lemma join_length (ps : list (list N * list N)) :
  ps <> [] ->
  (length (join [space]
             (List.map (fun p : list N * list N => p.1 ++ [space] ++ p.2) ps))
   + 1 + length ps
   <= list_sum (List.map (fun p : list N * list N => length p.1 + length p.2 + 3) ps))%nat.
Proof.
  induction ps as [|p ps IH]; [done|]. intros _.
  destruct ps as [|p' ps'].
  - simpl. rewrite !length_app. simpl. lia.
  - change (join [space]
              (List.map (fun p : list N * list N => p.1 ++ [space] ++ p.2)
                        (p :: p' :: ps')))
      with ((p.1 ++ [space] ++ p.2) ++ [space] ++
            join [space]
              (List.map (fun p : list N * list N => p.1 ++ [space] ++ p.2)
                        (p' :: ps'))).
    specialize (IH ltac:(done)).
    rewrite !length_app. unfold list_sum in *. cbn [List.map fold_right length] in *. lia.
Qed.

(** A replacement is at least four characters shorter than its match. *)
Lemma replace_params_shorter m g :
  sig_ok g = true -> m_groups m = sig_caps g [] -> m_whole m = sig_text g ->
  (length (replace_params m) + 4 <= length (m_whole m))%nat.
Proof.
  intros Hok Hc Hw. apply sig_ok_inv in Hok.
  destruct Hok as (H1 & _ & H2 & _ & H3 & H4 & _).
  apply run_of_length in H1, H2, H3, H4.
  rewrite Hw. unfold sig_text, replace_params. rewrite Hc.
  cbn [sig_caps group Nat.eqb].
  pose proof (findall2_weight (sg_params g)) as Hwt.
  destruct (findall2 param_pattern (sg_params g)) as [|p ps] eqn:Hps.
  - cbn [is_nil]. unfold fn_kw, arrow. rewrite !length_app. simpl. lia.
  - cbn [is_nil]. pose proof (join_length (p :: ps) ltac:(done)) as Hj.
    unfold fn_kw, arrow. rewrite !length_app.
    cbn [length] in *. lia.
Qed.

(** One pass shortens the text by at least four characters for every
    match it replaces. *)
Lemma convert_length s :
  (length (convert_function_params s) + 4 * length (hits (scan pattern s))
   <= length s)%nat.
Proof.
  remember (length s) as k eqn:Hk. revert s Hk.
  induction k as [k IH] using lt_wf_ind. intros s ->.
  rewrite (hits_scan_eq _ s pattern_never_empty).
  destruct (match_at pattern false s) as [m|] eqn:Hm.
  - pose proof (match_at_shorter _ _ _ pattern_never_empty Hm) as [_ Hlt].
    pose proof (IH _ Hlt _ eq_refl) as IHm.
    unfold convert_function_params in *.
    rewrite (sub_hit _ _ _ _ pattern_never_empty Hm).
    destruct (match_sig s m Hm) as (g & Hok & Hw & Hc & Hs).
    pose proof (replace_params_shorter m g Hok Hc Hw) as Hsh.
    apply (f_equal length) in Hs. rewrite <- Hw, length_app in Hs.
    rewrite length_app. cbn [length]. lia.
  - destruct s as [|x s].
    + unfold convert_function_params.
      rewrite (sub_nil _ _ pattern_never_empty). simpl. lia.
    + pose proof (IH (length s) (Nat.lt_succ_diag_r _) s eq_refl) as IHs.
      unfold convert_function_params in *.
      rewrite (sub_keep _ _ _ _ pattern_never_empty Hm). simpl. lia.
Qed.

Lemma occurs_hits s : occurs pattern s -> hits (scan pattern s) <> [].
Proof.
  intros (pre & t & Hs & Hocc).
  destruct (first_match_split pattern s) as [Hno|(G & t0 & m & -> & Hg & Hm)].
  - exfalso. pose proof (Hno pre t Hs) as Hn. by apply match_at_None in Hn.
  - by rewrite (hits_gap _ _ _ _ pattern_never_empty Hg Hm).
Qed.

Lemma convert_changed s :
  occurs pattern s -> (length (convert_function_params s) + 4 <= length s)%nat.
Proof.
  intros Hocc. apply occurs_hits in Hocc. pose proof (convert_length s) as Hl.
  destruct (hits (scan pattern s)); [done|]. simpl in Hl. lia.
Qed.

Lemma occurs_dec s : occurs pattern s \/ ~ occurs pattern s.
Proof.
  destruct (occursb pattern s) eqn:Hb.
  - left. by apply occursb_true.
  - right. intros H. apply occurs_occursb in H. congruence.
Qed.

(** X1.  The rewriter returns its input unchanged exactly when the
    pattern matches no substring of it. *)
Theorem unchanged_iff_no_occurrence s :
  convert_function_params s = s <-> ~ occurs pattern s.
Proof.
  split.
  - intros E Hocc. apply convert_changed in Hocc. rewrite E in Hocc. lia.
  - apply convert_no_occurrence.
Qed.

(** X2.  The rewriter never lengthens a text: the output is shorter than
    the input by at least four characters for each match replaced. *)
Theorem convert_never_longer s :
  (length (convert_function_params s) + 4 * length (hits (scan pattern s))
   <= length s)%nat.
Proof. apply convert_length. Qed.

(** X3.  Repeated rewriting comes to rest: after at most a quarter of
    the length of the text in passes, a further pass changes nothing. *)
Theorem convert_stabilises s :
  exists k, (4 * k <= length s)%nat /\
    Nat.iter (S k) convert_function_params s
    = Nat.iter k convert_function_params s.
Proof.
  remember (length s) as n eqn:Hn. revert s Hn.
  induction n as [n IH] using lt_wf_ind. intros s ->.
  destruct (occurs_dec s) as [Hocc|Hno].
  - pose proof (convert_changed s Hocc) as Hlen.
    destruct (IH (length (convert_function_params s)) ltac:(lia) _ eq_refl)
      as (k & Hk & Hfix).
    exists (S k). split; [lia|].
    etransitivity; [apply Nat.iter_succ_r|].
    etransitivity; [exact Hfix|]. symmetry. apply Nat.iter_succ_r.
  - exists 0%nat. split; [lia|]. simpl. by apply convert_no_occurrence.
Qed.

(** The replacement of a match, with its middle part named. *)
Lemma replace_params_middle m g :
  sig_ok g = true -> m_groups m = sig_caps g [] ->
  exists mid, replace_params m
              = fn_kw ++ [space] ++ sg_name g ++ mid ++ arrow ++ sg_rest g /\
              forallb word_or_space mid = true.
Proof.
  intros Hok Hc. unfold replace_params. rewrite Hc.
  cbn [sig_caps group Nat.eqb].
  destruct (findall2 param_pattern (sg_params g)) as [|p ps] eqn:Hps.
  - by exists [].
  - cbn [is_nil].
    exists ([space] ++
            join [space]
              (List.map (fun p : list N * list N => p.1 ++ [space] ++ p.2) (p :: ps))).
    split; [by list_norm|].
    rewrite forallb_app, join_wos; [reflexivity|].
    intros q Hq. apply (findall2_words (sg_params g)). by rewrite Hps.
Qed.

(** X4.  Every match starts with an opening parenthesis and captures
    "fn" and a non-empty name of word characters; its replacement is
    "fn", a space, that name, then word characters and spaces only, then
    the arrow and the rest capture: no parenthesis of the head or of the
    parameter list is kept. *)
Theorem replacement_shape s m :
  In m (hits (scan pattern s)) ->
  (exists w, m_whole m = lparen :: w) /\
  group 1 (m_groups m) = fn_kw /\
  run_of is_word (group 2 (m_groups m)) = true /\
  exists mid, replace_params m
              = fn_kw ++ [space] ++ group 2 (m_groups m) ++ mid ++ arrow
                ++ group 4 (m_groups m) /\
              forallb word_or_space mid = true.
Proof.
  intros Hin. apply (scan_hits _ _ _ pattern_never_empty) in Hin.
  destruct Hin as (pre & t & _ & Hm).
  destruct (match_sig t m Hm) as (g & Hok & Hw & Hc & _).
  destruct (replace_params_middle m g Hok Hc) as (mid & HR & Hmid).
  rewrite Hc. cbn [sig_caps group Nat.eqb].
  split; [rewrite Hw, sig_text_split; eauto|]. split; [done|].
  split; [apply sig_ok_inv in Hok; tauto|]. by exists mid.
Qed.

(** ** Further properties of [main] *)





Lemma for_each_dom l w :
  dom (files (for_each l convert_file w).1) = dom (files w).
Proof.
  revert w. induction l as [|path l IH]; intros w; [done|].
  rewrite for_each_cons.
  destruct (convert_file_turn path w)
    as [cs _ _ _|n cs _ _ _ _|content Hf Hne Hcm|content Hf Hne Hcm];
    [done|by rewrite IH| |].
  - rewrite IH. cbn [files]. apply dom_insert_lookup_L. by rewrite Hf.
  - cbn [fst files]. apply dom_insert_lookup_L. by rewrite Hf.
Qed.

(** X7.  [main] neither creates nor deletes a file: the set of paths of
    the store is the same after the run, whatever the arguments. *)
Theorem main_keeps_paths argv w :
  dom (files (main argv w).1) = dom (files w).
Proof.
  destruct (Nat.ltb_spec (length argv) 2) as [Hlt|Hge].
  - by rewrite (main_usage argv w Hlt).
  - rewrite (main_loop argv w Hge). apply for_each_dom.
Qed.




Lemma notice_for_after_write fs path content data n q :
  fs !! path = Some (MkNode (Some content) true) ->
  notice_for (<[path := MkNode (Some data) true]> fs) n q <-> notice_for fs n q.
Proof.
  intros H. unfold notice_for. destruct (decide (path = q)) as [<-|Hne].
  - rewrite lookup_insert_eq, H. split; (intros [[_ ?]|[? _]]; [done|right; eauto]).
  - by rewrite lookup_insert_ne.
Qed.

Lemma for_each_notices l w :
  exists ns,
    stdout (for_each l convert_file w).1 = stdout w ++ ns /\
    Forall2 (notice_for (files w)) ns (take (length ns) l) /\
    ((for_each l convert_file w).2 = Ok tt <-> length ns = length l).
Proof.
  revert w. induction l as [|path l IH]; intros w.
  - exists []. rewrite app_nil_r. by repeat split.
  - rewrite for_each_cons.
    destruct (convert_file_turn path w)
      as [cs _ _ _|n cs _ Hn _ _|content Hf Hne Hcm|content Hf Hne Hcm].
    + exists []. rewrite app_nil_r. split; [done|]. split; [constructor|]. done.
    + destruct (IH (MkWorld (files w) (stdout w ++ [n]) (calls w ++ cs)))
        as (ns & H1 & H2 & H3). cbn [files stdout] in *.
      exists (n :: ns). rewrite H1, <- app_assoc. split; [done|].
      split; [by constructor|]. rewrite H3. simpl. lia.
    + match goal with |- context [for_each l convert_file ?w1] =>
        destruct (IH w1) as (ns & H1 & H2 & H3) end.
      cbn [files stdout] in *.
      exists (Converted (str_Path path) :: ns). rewrite H1, <- app_assoc.
      split; [done|]. split; [|rewrite H3; simpl; lia].
      constructor.
      * right. split; [by left|]. by rewrite Hf.
      * eapply Forall2_impl; [exact H2|]. intros n q.
        by apply (notice_for_after_write _ _ content).
    + exists []. cbn [fst snd stdout]. rewrite app_nil_r. split; [done|].
      split; [constructor|]. done.
Qed.

(** X9.  With file arguments, [main] prints one notice for each
    argument it gets through, in the order of the arguments, and each
    notice shows the text of the [Path] made from its argument: a skip
    exactly for a path that is missing, "converted" or "unchanged" for
    one that exists.  There is a notice for every argument exactly when
    the run returns normally. *)
Theorem notices_follow_arguments argv w :
  (2 <= length argv)%nat ->
  exists ns,
    stdout (main argv w).1 = stdout w ++ ns /\
    Forall2 (notice_for (files w)) ns (take (length ns) (drop 1 argv)) /\
    ((main argv w).2 = Ok tt <-> length ns = length (drop 1 argv)).
Proof. intros Hge. rewrite (main_loop argv w Hge). apply for_each_notices. Qed.

Lemma for_each_calls l w :
  exists blocks,
    calls (for_each l convert_file w).1 = calls w ++ concat blocks /\
    Forall2 calls_for blocks (take (length blocks) l).
Proof.
  revert w. induction l as [|path l IH]; intros w.
  - exists []. rewrite app_nil_r. by split.
  - rewrite for_each_cons.
    destruct (convert_file_turn path w)
      as [cs _ _ Hcs|n cs _ _ _ Hcs|content Hf Hne Hcm|content Hf Hne Hcm].
    + exists [cs]. cbn [concat]. rewrite app_nil_r. split; [done|].
      constructor; [done|constructor].
    + destruct (IH (MkWorld (files w) (stdout w ++ [n]) (calls w ++ cs)))
        as (bs & H1 & H2). cbn [calls] in *.
      exists (cs :: bs). rewrite H1, <- app_assoc. split; [done|].
      by constructor.
    + match goal with |- context [for_each l convert_file ?w1] =>
        destruct (IH w1) as (bs & H1 & H2) end.
      cbn [calls] in *.
      eexists (_ :: bs). rewrite H1, <- app_assoc. split; [done|].
      constructor; [|done]. right. right. by exists content.
    + eexists [_]. cbn [concat fst calls]. rewrite app_nil_r. split; [done|].
      constructor; [|constructor]. right. right. by exists content.
Qed.

(** X10.  The file-system calls of a run are one block for each
    argument it reaches, in the order of the arguments, and every call
    of a block is on that argument's path: an existence check alone, or
    followed by a read, or followed by a read and one write of a
    rewritten text that differs from the text before rewriting.  No
    other path is touched, nothing is written before it is read, and
    without file arguments no call is made. *)
Theorem calls_follow_arguments argv w :
  exists blocks,
    calls (main argv w).1 = calls w ++ concat blocks /\
    Forall2 calls_for blocks (take (length blocks) (drop 1 argv)).
Proof.
  destruct (Nat.ltb_spec (length argv) 2) as [Hlt|Hge].
  - rewrite (main_usage argv w Hlt). exists []. rewrite app_nil_r. by split.
  - rewrite (main_loop argv w Hge). apply for_each_calls.
Qed.


(** ** Signatures in the layout of the docstring *)

Lemma run_stop_unique (p : char -> bool) u x v y :
  forallb p u = true -> forallb p v = true -> stops p x -> stops p y ->
  u ++ x = v ++ y -> u = v /\ x = y.
Proof.
  revert v. induction u as [|a u IH]; intros v Hu Hv Hx Hy E.
  - destruct v as [|b v]; [done|]. simpl in E. subst x. simpl in Hx, Hv.
    apply andb_true_iff in Hv. destruct Hv as [Hb _]. congruence.
  - simpl in Hu. apply andb_true_iff in Hu. destruct Hu as [Ha Hu].
    destruct v as [|b v]; simpl in E.
    + subst y. simpl in Hy. congruence.
    + injection E as -> E. simpl in Hv. apply andb_true_iff in Hv.
      destruct Hv as [_ Hv]. destruct (IH v Hu Hv Hx Hy E) as [-> ->]. done.
Qed.

Lemma spaces_then_minus ws X l Y :
  forallb is_space ws = true -> ws ++ minus :: X = l ++ rparen :: Y -> In minus l.
Proof.
  revert l. induction ws as [|a ws IH]; intros l Hws E.
  - destruct l as [|b l]; simpl in E; [clash E|]. injection E as <- _. by left.
  - simpl in Hws. apply andb_true_iff in Hws. destruct Hws as [Ha Hws].
    destruct l as [|b l]; simpl in E.
    + injection E as -> _. by vm_compute in Ha.
    + injection E as _ E. right. by apply IH.
Qed.

(** The parameter region ends at the first closing parenthesis that no
    opening one calls for. *)
Lemma region_unique P Q ws X Y :
  region_ok P = true -> run false Q = Some false -> ~ In minus Q ->
  forallb is_space ws = true ->
  P ++ rparen :: ws ++ minus :: X = Q ++ rparen :: Y ->
  P = Q /\ ws ++ minus :: X = Y.
Proof.
  intros HP HQ Hm Hws E. apply app_eq_app in E.
  destruct E as (l & [[E1 E2]|[E1 E2]]).
  - destruct l as [|b l].
    + rewrite app_nil_r in E1. simpl in E2. injection E2 as E2. by subst.
    + simpl in E2. injection E2 as <- _. exfalso. subst P.
      unfold region_ok in HP. rewrite run_app, HQ in HP. by vm_compute in HP.
  - destruct l as [|b l].
    + rewrite app_nil_r in E1. simpl in E2. injection E2 as E2. by subst.
    + simpl in E2. injection E2 as _ E2. exfalso. apply Hm. rewrite E1.
      apply in_or_app. right. right. by apply (spaces_then_minus ws X l Y).
Qed.

Lemma word_wos x : is_word x = true -> word_or_space x = true.
Proof. unfold word_or_space. by intros ->. Qed.

Lemma pair_wos (p : list N * list N) :
  run_of is_word p.1 = true -> run_of is_word p.2 = true ->
  forallb word_or_space (p.1 ++ [space] ++ p.2) = true.
Proof.
  intros H1 H2. apply run_of_forallb in H1, H2.
  rewrite !forallb_app. apply andb_true_iff. split; [|apply andb_true_iff; split].
  - eapply forallb_imp; [apply word_wos|done].
  - by vm_compute.
  - eapply forallb_imp; [apply word_wos|done].
Qed.

Lemma wos_not_minus x : word_or_space x = true -> x <> minus.
Proof. intros H ->. by vm_compute in H. Qed.

Lemma old_param_run (p : list N * list N) :
  run_of is_word p.1 = true -> run_of is_word p.2 = true ->
  run false (old_param p) = Some false /\ ~ In minus (old_param p).
Proof.
  intros H1 H2. pose proof (pair_wos p H1 H2) as Hw. unfold old_param.
  change ([lparen] ++ p.1 ++ [space] ++ p.2 ++ [rparen])
    with (lparen :: p.1 ++ [space] ++ p.2 ++ [rparen]).
  replace (p.1 ++ [space] ++ p.2 ++ [rparen])
    with ((p.1 ++ [space] ++ p.2) ++ [rparen]) by by list_norm.
  split.
  - change (run false (lparen :: (p.1 ++ [space] ++ p.2) ++ [rparen]))
      with (run true ((p.1 ++ [space] ++ p.2) ++ [rparen])).
    rewrite run_app.
    destruct (run_norp true (p.1 ++ [space] ++ p.2)) as (b' & -> & Hb').
    { eapply forallb_imp; [apply wos_not_rparen|done]. }
    by rewrite Hb'.
  - intros [E|Hin]; [by vm_compute in E|].
    apply in_app_or in Hin. destruct Hin as [Hin|[E|[]]]; [|by vm_compute in E].
    rewrite forallb_forall in Hw. by apply (wos_not_minus _ (Hw _ Hin)).
Qed.

Lemma old_params_cons p ps :
  old_params (p :: ps)
  = old_param p ++ match ps with [] => [] | _ :: _ => space :: old_params ps end.
Proof.
  destruct ps as [|q ps]; unfold old_params; cbn [List.map join app];
    [by rewrite app_nil_r|done].
Qed.

Lemma old_params_run ps :
  forallb (fun p : list N * list N => run_of is_word p.1 && run_of is_word p.2) ps
  = true ->
  run false (old_params ps) = Some false /\ ~ In minus (old_params ps).
Proof.
  induction ps as [|p ps IH]; intros H; [by split; [|intros []]|].
  cbn [forallb] in H. apply andb_true_iff in H. destruct H as [Hp H].
  apply andb_true_iff in Hp. destruct Hp as [H1 H2].
  destruct (old_param_run p H1 H2) as [Hr Hm]. destruct (IH H) as [IHr IHm].
  rewrite old_params_cons. split.
  - rewrite run_app, Hr. destruct ps as [|q ps]; [done|]. exact IHr.
  - intros Hin. apply in_app_or in Hin. destruct Hin as [Hin|Hin]; [done|].
    destruct ps as [|q ps]; [done|]. destruct Hin as [E|Hin]; [|done].
    by vm_compute in E.
Qed.

Section Layout.

Hypothesis uni_disjoint : forall x, uword x && uspace x = false.

(** [re.findall] reads the parameters of the layout back. *)
Lemma findall2_old_params ps :
  forallb (fun p : list N * list N => run_of is_word p.1 && run_of is_word p.2) ps
  = true ->
  findall2 param_pattern (old_params ps) = ps.
Proof.
  rewrite (findall2_spec_pairs uni_disjoint).
  induction ps as [|p ps IH]; intros H; [done|].
  cbn [forallb] in H. apply andb_true_iff in H. destruct H as [Hp H].
  apply andb_true_iff in Hp. destruct Hp as [H1 H2].
  rewrite old_params_cons. unfold old_param.
  set (tail := match ps with [] => [] | _ :: _ => space :: old_params ps end).
  assert (spec_pairs tail = ps) as Htail.
  { subst tail. destruct ps as [|q ps]; [done|].
    change (space :: old_params (q :: ps)) with ([space] ++ old_params (q :: ps)).
    rewrite (spec_pairs_skip [space] (old_params (q :: ps))); [by apply IH|].
    by vm_compute. }
  pose proof (spec_pair_at_shape uni_disjoint p.1 [space] p.2 tail H1
                ltac:(by vm_compute) H2) as Hat.
  change (([lparen] ++ p.1 ++ [space] ++ p.2 ++ [rparen]) ++ tail)
    with (lparen :: (p.1 ++ [space] ++ p.2 ++ [rparen]) ++ tail) in *.
  cbn [spec_pairs]. rewrite Hat.
  rewrite spec_pairs_skip, Htail; [by destruct p|].
  pose proof (pair_wos p H1 H2) as Hw.
  replace (p.1 ++ [space] ++ p.2 ++ [rparen])
    with ((p.1 ++ [space] ++ p.2) ++ [rparen]) by by list_norm.
  rewrite forallb_app. apply andb_true_iff. split; [|by vm_compute].
  eapply forallb_imp; [apply wos_not_lparen|done].
Qed.

(** A match at the start of a signature of the layout is the whole
    signature, cut as the layout cuts it. *)
Lemma signature_unique g name ps ret after after' :
  sig_ok g = true -> well_formed name ps ret = true ->
  stops dot after -> stops dot after' ->
  sig_text g ++ after' = old_signature name ps ret ++ after ->
  sg_name g = name /\ sg_params g = old_params ps /\ sg_rest g = ret /\
  after' = after.
Proof.
  intros Hok Hwf Ha Ha' E. apply sig_ok_inv in Hok.
  destruct Hok as (W1 & Wn & W2 & Wp & W3 & W4 & Wr).
  unfold well_formed in Hwf. apply andb_true_iff in Hwf.
  destruct Hwf as [Hwf Hret]. apply andb_true_iff in Hwf.
  destruct Hwf as [Hname Hps].
  destruct ret as [|e0 ret']; [done|]. apply andb_true_iff in Hret.
  destruct Hret as [He0 Hret]. apply negb_true_iff in He0.
  destruct (old_params_run ps Hps) as [Hrun Hminus].
  destruct g as [ws1 nm ws2 P ws3 ws4 rest]. cbn [sg_ws1 sg_name sg_ws2 sg_params
    sg_ws3 sg_ws4 sg_rest] in *.
  unfold sig_text, old_signature, fn_kw, arrow in E.
  cbn [sg_ws1 sg_name sg_ws2 sg_params sg_ws3 sg_ws4 sg_rest] in E.
  destruct (run_of_inv _ _ Wn) as (n0 & nm' & -> & Hn0 & Hnm).
  destruct (run_of_inv _ _ Hname) as (a0 & name' & -> & Ha0 & Hnm2).
  destruct (run_of_inv _ _ W2) as (s0 & ws2' & -> & Hs0 & Hws2).
  destruct (run_of_inv _ _ W4) as (w0 & ws4' & -> & Hw0 & Hws4).
  destruct (run_of_inv _ _ Wr) as (r0 & rest' & -> & Hr0 & Hrest).
  apply run_of_forallb in W1, W3.
  repeat rewrite <- app_assoc in E. cbn [app] in E.
  injection E as E.
  (* the first run of whitespace *)
  apply (first_stop is_space ws1 n0 _ [space] a0 _) in E;
    [|done|by vm_compute|by apply word_not_space|by apply word_not_space].
  destruct E as (-> & -> & E).
  (* the name *)
  cbn [forallb] in Hnm, Hnm2, Hws2, Hws4.
  apply andb_true_iff in Hnm, Hnm2, Hws2, Hws4.
  destruct Hnm as [_ Hnm], Hnm2 as [_ Hnm2], Hws2 as [_ Hws2], Hws4 as [_ Hws4].
  apply (first_stop is_word nm' s0 _ name' space _) in E;
    [|done|done|by apply space_not_word|by vm_compute].
  destruct E as (-> & -> & E).
  (* the second run of whitespace *)
  apply (first_stop is_space ws2' lparen _ [] lparen _) in E;
    [|done|done|by vm_compute|by vm_compute].
  destruct E as (-> & _ & E).
  (* the parameter region *)
  apply (region_unique P (old_params ps) ws3 _ _ Wp Hrun Hminus W3) in E.
  destruct E as [-> E].
  apply (first_stop is_space ws3 minus _ [space] minus _) in E;
    [|done|by vm_compute|by vm_compute|by vm_compute].
  destruct E as (-> & _ & E). injection E as _ E.
  (* the last run of whitespace and the rest *)
  destruct ws4' as [|w1 ws4']; cbn [app] in E.
  2:{ injection E as -> _. cbn [forallb] in Hws4.
      apply andb_true_iff in Hws4. destruct Hws4 as [Hw1 _]. congruence. }
  apply (run_stop_unique dot (r0 :: rest') after' (e0 :: ret') after) in E;
    [|done|done|done|done].
  destruct E as [E ->]. by rewrite E.
Qed.

(** X12.  In a text made of any text without an opening parenthesis,
    then a signature in the layout of the docstring, with any name, any
    number of parameters and a return type that reaches the end of its
    line, then the end of the text or a newline and any text, the first
    part is kept, the signature is rewritten into the keyword, the name,
    the parameter names and types in their order and the return type,
    one space apart and without any parenthesis, and what follows the
    line is rewritten on its own. *)
Theorem layout_signature_flattened before name ps ret after :
  forallb not_lparen before = true ->
  well_formed name ps ret = true ->
  (after = [] \/ exists after', after = newline :: after') ->
  convert_function_params (before ++ old_signature name ps ret ++ after)
  = before ++ flat_signature name ps ret ++ convert_function_params after.
Proof.
  intros Hbefore Hwf Hafter.
  assert (gap pattern before (old_signature name ps ret ++ after)) as Hgap.
  { intros G1 G2 -> Hne. destruct G2 as [|y G2]; [done|].
    rewrite forallb_app in Hbefore. apply andb_true_iff in Hbefore.
    destruct Hbefore as [_ Hy]. cbn [forallb] in Hy.
    apply andb_true_iff in Hy. destruct Hy as [Hy _].
    cbn [app]. by apply no_match_not_lparen. }
  assert (stops dot after) as Hstop.
  { destruct Hafter as [->|(t & ->)]; [done|by vm_compute]. }
  pose (g := MkSig [space] name [space] (old_params ps) [space] [space] ret).
  assert (sig_ok g = true) as Hg.
  { unfold well_formed in Hwf. apply andb_true_iff in Hwf.
    destruct Hwf as [Hwf Hret]. apply andb_true_iff in Hwf.
    destruct Hwf as [Hname Hps].
    destruct (old_params_run ps Hps) as [Hrun _].
    unfold sig_ok, g. cbn [sg_ws1 sg_name sg_ws2 sg_params sg_ws3 sg_ws4 sg_rest].
    unfold region_ok. rewrite Hrun, Hname.
    destruct ret as [|e0 ret']; [done|]. apply andb_true_iff in Hret.
    destruct Hret as [_ Hret]. unfold run_of at 5. cbn [is_nil negb].
    rewrite Hret. by vm_compute. }
  assert (old_signature name ps ret = sig_text g) as Hold.
  { unfold old_signature, sig_text, g, fn_kw, arrow.
    cbn [sg_ws1 sg_name sg_ws2 sg_params sg_ws3 sg_ws4 sg_rest].
    by list_norm. }
  destruct (match_at pattern false (old_signature name ps ret ++ after))
    as [m|] eqn:Hm.
  2:{ apply match_at_None in Hm. exfalso. apply Hm. apply occurs_at_pattern.
      exists g, after. by rewrite Hold. }
  pose proof (match_rest_maximal _ _ Hm) as Hmax.
  destruct (match_sig _ _ Hm) as (g' & Hok' & Hw' & Hc' & Hs').
  symmetry in Hs'.
  destruct (signature_unique g' name ps ret after (m_after m) Hok' Hwf Hstop Hmax Hs')
    as (En & Ep & Er & Ea).
  rewrite (convert_gap _ _ _ Hgap Hm), Ea. f_equal. f_equal.
  unfold replace_params, flat_signature. rewrite Hc'.
  cbn [sig_caps group Nat.eqb]. rewrite En, Ep, Er.
  unfold well_formed in Hwf. apply andb_true_iff in Hwf.
  destruct Hwf as [Hwf _]. apply andb_true_iff in Hwf. destruct Hwf as [_ Hps].
  rewrite (findall2_old_params ps Hps).
  destruct ps as [|p ps]; cbn [is_nil]; by list_norm.
Qed.

End Layout.

End Rewriter.

(** ** Concrete runs *)

Abbreviation convert := (convert_function_params ascii_only ascii_only).

Example convert_two_lines :
  convert two_lines = str "fn a -> x" ++ [newline] ++ str "fn b -> y".
Proof. by vm_compute. Qed.

Example convert_keeps_surroundings :
  convert (str "; add" ++ [newline] ++ str "  (fn add ((a i32) (b i32)) -> i32"
           ++ [newline] ++ str "    (ret (+ a b)))")
  = str "; add" ++ [newline] ++ str "  fn add a i32 b i32 -> i32"
    ++ [newline] ++ str "    (ret (+ a b)))".
Proof. by vm_compute. Qed.

Example convert_three_parameters :
  convert (str "(fn mix ((a i32) (b f64) (c str)) -> i32")
  = str "fn mix a i32 b f64 c str -> i32".
Proof. by vm_compute. Qed.

(** The whitespace after the arrow may hold a newline: the rest capture
    of a match that starts on one line may be the whole next line. *)
Example rest_on_the_next_line :
  rests ascii_only ascii_only
    (str "(fn a () ->  " ++ [newline] ++ str "(fn b () -> y")
  = [str "(fn b () -> y"].
Proof. by vm_compute. Qed.

Example str_Path_examples :
  str_Path "./missing.aisl" = "missing.aisl" /\
  str_Path "tests//a/./b.aisl" = "tests/a/b.aisl" /\
  str_Path "tests/" = "tests" /\
  str_Path "../a.aisl" = "../a.aisl" /\
  str_Path "/tmp/a.aisl" = "/tmp/a.aisl" /\
  str_Path "//tmp/a.aisl" = "//tmp/a.aisl" /\
  str_Path "///tmp/a.aisl" = "/tmp/a.aisl" /\
  str_Path "" = "." /\
  str_Path "./" = ".".
Proof. repeat split; by vm_compute. Qed.

Lemma ascii_only_disjoint : forall x, ascii_only x && ascii_only x = false.
Proof. reflexivity. Qed.

(** C1, as stated, fails: the rest of a match may hold a further
    signature, which the second pass rewrites. *)
Lemma idempotence_counterexample :
  convert (str "(fn a () -> (fn b () -> c") = str "fn a -> (fn b () -> c" /\
  convert (convert (str "(fn a () -> (fn b () -> c")) = str "fn a -> fn b -> c" /\
  convert (convert (str "(fn a () -> (fn b () -> c"))
  <> convert (str "(fn a () -> (fn b () -> c").
Proof. split; [by vm_compute|]. split; [by vm_compute|]. vm_compute. discriminate. Qed.

Lemma idempotent_when_rests_plain_witness :
  rests_plain ascii_only ascii_only
    (str "(fn add ((a i32) (b i32)) -> i32 (ret (+ a b)))") = true /\
  convert (convert (str "(fn add ((a i32) (b i32)) -> i32 (ret (+ a b)))"))
  = convert (str "(fn add ((a i32) (b i32)) -> i32 (ret (+ a b)))").
Proof.
  split; [reflexivity|].
  apply (idempotent_when_rests_plain ascii_only ascii_only). reflexivity.
Defined.

(** C2, as stated, fails: the rest of the first of two signatures on
    separate lines stops at the end of its line. *)
Lemma rest_counterexample :
  rests ascii_only ascii_only two_lines = [str "x"; str "y"] /\
  hd [] (rests ascii_only ascii_only two_lines)
  <> str "x" ++ [newline] ++ str "(fn b () -> y".
Proof. split; [by vm_compute|]. vm_compute. discriminate. Qed.

Lemma rest_ends_at_line_end_witness :
  In first_of_two (hits (scan (pattern ascii_only ascii_only) two_lines)) /\
  run_of dot (group 4 (m_groups first_of_two)) = true /\
  (m_after first_of_two = [] \/ exists t', m_after first_of_two = newline :: t').
Proof.
  assert (In first_of_two (hits (scan (pattern ascii_only ascii_only) two_lines)))
    as Hin by (vm_compute; by left).
  split; [exact Hin|].
  destruct (rest_ends_at_line_end ascii_only ascii_only two_lines first_of_two Hin)
    as (H1 & H2 & _).
  by split.
Defined.

Lemma zero_parameter_case_witness :
  findall2 (param_pattern ascii_only ascii_only) (group 3 (m_groups main_match)) = [] /\
  replace_params ascii_only ascii_only main_match = str "fn main -> i32".
Proof.
  split; [reflexivity|].
  rewrite (proj2 (zero_parameter_case ascii_only ascii_only) main_match); reflexivity.
Defined.

Lemma extraction_witness :
  (forall x, ascii_only x && ascii_only x = false) /\
  spec_pairs ascii_only ascii_only (group 3 (m_groups mixed_match))
  = [(str "a", str "i32"); (str "x", str "y")] /\
  replace_params ascii_only ascii_only mixed_match = str "fn f a i32 x y -> i32".
Proof.
  split; [exact ascii_only_disjoint|]. split; [reflexivity|].
  rewrite (proj2 (extraction_is_maximal_run_rule ascii_only ascii_only
                    ascii_only_disjoint mixed_match)).
  reflexivity.
Defined.

Lemma pass_through_witness :
  ~ occurs (pattern ascii_only ascii_only) (str "(defn main (x) -> i32 ; (fn") /\
  convert (str "(defn main (x) -> i32 ; (fn") = str "(defn main (x) -> i32 ; (fn".
Proof.
  assert (~ occurs (pattern ascii_only ascii_only) (str "(defn main (x) -> i32 ; (fn"))
    as Hno.
  { intros H. apply occurs_occursb in H. vm_compute in H. discriminate H. }
  split; [exact Hno|].
  exact (pass_through ascii_only ascii_only _ Hno).
Defined.

(** C8, as stated, fails: a match may begin on one line and end on the
    next, because whitespace runs and the parameter region may hold
    newlines; the second line of [split_sig], on which no match begins,
    is not a line of the output. *)
Lemma frame_counterexample :
  lines split_sig = [str "(fn f"; str "() -> x"] /\
  (exists m, search (pattern ascii_only ascii_only) split_sig = Some ([], m) /\
             m_after m = []) /\
  lines (convert split_sig) = [str "fn f -> x"] /\
  ~ In (str "() -> x") (lines (convert split_sig)).
Proof.
  split; [by vm_compute|]. split.
  - eexists. split; by vm_compute.
  - split; [by vm_compute|]. vm_compute. intros [H|[]]. discriminate H.
Qed.

Lemma replacement_ends_at_line_end_witness :
  search (pattern ascii_only ascii_only) two_lines = Some ([], first_of_two) /\
  convert two_lines
  = replace_params ascii_only ascii_only first_of_two ++ convert (m_after first_of_two).
Proof.
  assert (search (pattern ascii_only ascii_only) two_lines = Some ([], first_of_two))
    as Hs by reflexivity.
  split; [exact Hs|].
  exact (proj1 (replacement_ends_at_line_end ascii_only ascii_only two_lines []
                  first_of_two Hs)).
Defined.





(** ** Concrete runs of the further properties *)

Example main_on_mixed_world :
  main ascii_only ascii_only true
       ["convert-syntax.py"; "a.aisl"; "src"; "b.aisl"] mixed_world
  = (MkWorld (<["a.aisl" := MkNode (Some (str "fn main -> i32")) true]> (files mixed_world))
             [Converted "a.aisl"]
             [IoExists "a.aisl"; IoRead "a.aisl"; IoWrite "a.aisl" (str "fn main -> i32");
              IoExists "src"; IoRead "src"],
     Raise (FileError "src")).
Proof. by vm_compute. Qed.

Example main_on_locked_world :
  main ascii_only ascii_only true ["convert-syntax.py"; "locked/a.aisl"] locked_world
  = (MkWorld (files locked_world) [] [IoExists "locked/a.aisl"],
     Raise (FileError "locked/a.aisl")).
Proof. by vm_compute. Qed.

Lemma replacement_shape_witness :
  In first_of_two (hits (scan (pattern ascii_only ascii_only) two_lines)) /\
  (exists w, m_whole first_of_two = lparen :: w) /\
  group 1 (m_groups first_of_two) = fn_kw /\
  run_of (is_word ascii_only) (group 2 (m_groups first_of_two)) = true /\
  exists mid,
    replace_params ascii_only ascii_only first_of_two
    = fn_kw ++ [space] ++ group 2 (m_groups first_of_two) ++ mid ++ arrow
      ++ group 4 (m_groups first_of_two) /\
    forallb (word_or_space ascii_only ascii_only) mid = true.
Proof.
  assert (In first_of_two (hits (scan (pattern ascii_only ascii_only) two_lines)))
    as Hin by (vm_compute; by left).
  split; [exact Hin|].
  exact (replacement_shape ascii_only ascii_only two_lines first_of_two Hin).
Defined.



Lemma notices_follow_arguments_witness :
  (2 <= length ["convert-syntax.py"; "a.aisl"; "./missing.aisl"])%nat /\
  exists ns,
    stdout (main ascii_only ascii_only true
              ["convert-syntax.py"; "a.aisl"; "./missing.aisl"] small_world).1
    = stdout small_world ++ ns /\
    Forall2 (notice_for (files small_world)) ns
            (take (length ns) (drop 1 ["convert-syntax.py"; "a.aisl"; "./missing.aisl"])) /\
    ((main ascii_only ascii_only true
        ["convert-syntax.py"; "a.aisl"; "./missing.aisl"] small_world).2 = Ok tt
     <-> length ns = length (drop 1 ["convert-syntax.py"; "a.aisl"; "./missing.aisl"])).
Proof.
  assert (2 <= length ["convert-syntax.py"; "a.aisl"; "./missing.aisl"])%nat
    as Hlen by (simpl; lia).
  split; [exact Hlen|].
  exact (notices_follow_arguments ascii_only ascii_only true
           ["convert-syntax.py"; "a.aisl"; "./missing.aisl"] small_world Hlen).
Defined.


Lemma layout_signature_flattened_witness :
  (forall x, ascii_only x && ascii_only x = false) /\
  forallb not_lparen (str "; sum" ++ [newline] ++ str "  ") = true /\
  well_formed ascii_only ascii_only (str "add")
    [(str "a", str "i32"); (str "b", str "i32")] (str "i32") = true /\
  convert ((str "; sum" ++ [newline] ++ str "  ")
           ++ old_signature (str "add") [(str "a", str "i32"); (str "b", str "i32")]
                (str "i32")
           ++ newline :: str "  (ret (+ a b)))")
  = (str "; sum" ++ [newline] ++ str "  ")
    ++ flat_signature (str "add") [(str "a", str "i32"); (str "b", str "i32")]
         (str "i32")
    ++ convert (newline :: str "  (ret (+ a b)))").
Proof.
  assert (forallb not_lparen (str "; sum" ++ [newline] ++ str "  ") = true)
    as Hbefore by reflexivity.
  assert (well_formed ascii_only ascii_only (str "add")
            [(str "a", str "i32"); (str "b", str "i32")] (str "i32") = true)
    as Hwf by reflexivity.
  split; [exact ascii_only_disjoint|]. split; [exact Hbefore|]. split; [exact Hwf|].
  exact (layout_signature_flattened ascii_only ascii_only ascii_only_disjoint
           (str "; sum" ++ [newline] ++ str "  ")
           (str "add") [(str "a", str "i32"); (str "b", str "i32")] (str "i32")
           (newline :: str "  (ret (+ a b)))")
           Hbefore Hwf (or_intror (ex_intro _ _ eq_refl))).
Defined.
